(** * vue-swr-composable: the SWR resource engine and its amnesia store

    A shallow embedding of [packages/core/src]: the resource state record
    ([types.ts]), the default in-memory store ([amnesia-store.ts]) and the
    composable [useSwr] with its helpers [normalizeFetch], [useKeyedScope],
    [useConditionalScope], [useResourceOwnership], [executeFetch] and
    [initFetchAbort], and the retry helper [setupErrorRetry]
    ([error-retry.ts]).

    Resource states are JavaScript objects that are shared by reference
    between the store, the reactive [state] of a scope and every fetch task
    that was dispatched against them.  The embedding therefore keeps an
    explicit object heap: a location is an index in a list of records, the
    store maps keys to locations, and a task remembers the location of the
    object it received. *)

From Stdlib Require Import ZArith Lia.
From stdpp Require Import gmap strings list fin_maps.

(** ** Resource keys ([types.ts]) *)

(** [type ResourceKey = string | number | symbol].  Number keys are taken
    to be integers, symbols are told apart by an identity. *)
Inductive ResourceKey :=
| KString (s : string)
| KNumber (n : Z)
| KSymbol (id : positive).

#[global] Instance ResourceKey_eq_dec : EqDecision ResourceKey.
Proof. solve_decision. Defined.

Definition ResourceKey_to_sum (k : ResourceKey) : string + (Z + positive) :=
  match k with
  | KString s => inl s
  | KNumber n => inr (inl n)
  | KSymbol i => inr (inr i)
  end.

Definition ResourceKey_of_sum (x : string + (Z + positive)) : ResourceKey :=
  match x with
  | inl s => KString s
  | inr (inl n) => KNumber n
  | inr (inr i) => KSymbol i
  end.

#[global] Instance ResourceKey_countable : Countable ResourceKey.
Proof.
  apply (inj_countable' ResourceKey_to_sum ResourceKey_of_sum).
  intros []; reflexivity.
Defined.

(** [export const ANONYMOUS_KEY = Symbol('Anonymous')] *)
Definition ANONYMOUS_KEY : ResourceKey := KSymbol 1.

(** JavaScript truthiness of a key, as tested by [if (key)] in
    [useKeyedScope]: the empty string and zero are falsy. *)
Definition truthy (k : ResourceKey) : bool :=
  match k with
  | KString s => negb (String.eqb s "")
  | KNumber n => negb (n =? 0)%Z
  | KSymbol _ => true
  end.

(** Object identities of resource states. *)
Abbreviation loc := nat (only parsing).

(** ** The amnesia store ([amnesia-store.ts]) *)

(** [interface ResourceStore<T>] of [types.ts]: [get] and [set] over
    references to state objects. *)
Class ResourceStore (S : Type) := {
  store_get : ResourceKey → S → option loc;
  store_set : ResourceKey → option loc → S → S;
}.

Module AmnesiaStore.

(** [type AmnesiaStoreStorage<T> = Map<ResourceKey, ResourceState<T> | null>] *)
Record t := Make { storage : gmap ResourceKey (option loc) }.

(** [createAmnesiaStore()]: [reactive(new Map())] *)
Definition createAmnesiaStore : t := Make ∅.

(** [get(key) { return storage.get(key) ?? null }] *)
Definition get (key : ResourceKey) (st : t) : option loc :=
  match storage st !! key with
  | Some (Some l) => Some l
  | Some None => None
  | None => None
  end.

(** [set(key, state) { storage.set(key, state) }] *)
Definition set (key : ResourceKey) (state : option loc) (st : t) : t :=
  Make (<[key := state]> (storage st)).

(** [store.storage.clear()], used by callers to drop every entry. *)
Definition clear (st : t) : t := Make ∅.

(** A history of [set] calls, applied from left to right. *)
Definition sets (ops : list (ResourceKey * option loc)) (st : t) : t :=
  fold_left (λ acc op, set op.1 op.2 acc) ops st.

End AmnesiaStore.

#[global] Instance amnesia_ResourceStore : ResourceStore AmnesiaStore.t := {
  store_get := AmnesiaStore.get;
  store_set := AmnesiaStore.set;
}.

(** The value the latest [set] for [k] in a history wrote, if there is one. *)
Definition lastSet (k : ResourceKey) (ops : list (ResourceKey * option loc))
    : option (option loc) :=
  foldl (λ acc op, if bool_decide (op.1 = k) then Some op.2 else acc) None ops.

(** ** The retry-on-error helper ([error-retry.ts]) *)

Module ErrorRetry.

(** [interface ErrorRetryParams]; [interval] is the period of the timer,
    [count] is taken to be an integer. *)
Record ErrorRetryParams := {
  count : Z;
  interval : Z;
}.

(** The variables of one [setupErrorRetry] call together with what it
    shares with its host: the current value of [isActive], the value its
    watcher saw last, the timers that are armed, and how often [mutate]
    has been called. *)
Record t := mk {
  isActive : bool;
  watched : option bool;
  stopped : bool;
  intervalVar : option nat;
  passedRetries : Z;
  timers : list nat;
  nextTimer : nat;
  mutateCalls : nat;
}.

(** [function cancel() { clearInterval(interval) }] *)
Definition cancel (st : t) : t :=
  match intervalVar st with
  | Some id =>
      mk (isActive st) (watched st) (stopped st) (intervalVar st) (passedRetries st)
        (List.filter (λ x, negb (Nat.eqb x id)) (timers st)) (nextTimer st)
        (mutateCalls st)
  | None => st
  end.

(** [function reset()]: [setInterval] arms a timer with a new id. *)
Definition reset (params : ErrorRetryParams) (st : t) : t :=
  if (0 <? count params)%Z && isActive st then
    mk (isActive st) (watched st) (stopped st) (Some (nextTimer st)) 0
      (timers st ++ [nextTimer st]) (S (nextTimer st)) (mutateCalls st)
  else
    mk (isActive st) (watched st) (stopped st) (intervalVar st) 0
      (timers st) (nextTimer st) (mutateCalls st).

(** The callback given to [setInterval]. *)
Definition onInterval (params : ErrorRetryParams) (st : t) : t :=
  let st1 :=
    mk (isActive st) (watched st) (stopped st) (intervalVar st)
      (passedRetries st + 1) (timers st) (nextTimer st) (S (mutateCalls st)) in
  if (count params <=? passedRetries st1)%Z then cancel st1 else st1.

(** The callback of [watch(isActive, (val) => (val ? reset() : cancel()))]. *)
Definition onActive (params : ErrorRetryParams) (val : bool) (st : t) : t :=
  if val then reset params st else cancel st.

(** [setupErrorRetry]: the watcher runs at once ([immediate: true]) on
    the value [isActive] has at setup. *)
Definition setupErrorRetry (params : ErrorRetryParams) (active : bool) : t :=
  onActive params active (mk active (Some active) false None 0 [] 0 0).

(** What happens to the helper afterwards: the error of the resource
    appears or goes, the watcher is flushed, a timer fires, the scope is
    disposed. *)
Inductive Event :=
| SetError (present : bool)
| Flush
| Tick (id : nat)
| Dispose.

Definition step (params : ErrorRetryParams) (ev : Event) (st : t) : t :=
  match ev with
  | SetError b =>
      mk b (watched st) (stopped st) (intervalVar st) (passedRetries st)
        (timers st) (nextTimer st) (mutateCalls st)
  | Flush =>
      if stopped st then st
      else if bool_decide (watched st = Some (isActive st)) then st
      else
        onActive params (isActive st)
          (mk (isActive st) (Some (isActive st)) (stopped st) (intervalVar st)
             (passedRetries st) (timers st) (nextTimer st) (mutateCalls st))
  | Tick id =>
      if bool_decide (id ∈ timers st) then onInterval params st else st
  | Dispose =>
      cancel (mk (isActive st) (watched st) true (intervalVar st)
                (passedRetries st) (timers st) (nextTimer st) (mutateCalls st))
  end.

Definition run (params : ErrorRetryParams) (evs : list Event) (st : t) : t :=
  foldl (λ acc ev, step params ev acc) st evs.

(** At most one timer is armed, it is the one the variable [interval]
    names, it is armed only while the watcher has last seen an error, and
    it still has retries left. *)
Definition tidy (params : ErrorRetryParams) (st : t) : Prop :=
  (timers st = [] ∨
   ∃ id, intervalVar st = Some id ∧ timers st = [id] ∧
         watched st = Some true ∧ stopped st = false ∧
         (0 ≤ passedRetries st < count params)%Z).

End ErrorRetry.

(** ** Resource states and fetch tasks *)

Section Swr.

Context {T E : Type}.

(** [interface ResourceState<T>]; [Option<T> = null | { some: T }]. *)
Record ResourceState := mkState {
  data : option T;
  error : option E;
  pending : bool;
  fresh : bool;
  owners : Z;
}.

Definition with_data (d : option T) (s : ResourceState) : ResourceState :=
  mkState d (error s) (pending s) (fresh s) (owners s).
Definition with_error (e : option E) (s : ResourceState) : ResourceState :=
  mkState (data s) e (pending s) (fresh s) (owners s).
Definition with_pending (b : bool) (s : ResourceState) : ResourceState :=
  mkState (data s) (error s) b (fresh s) (owners s).
Definition with_fresh (b : bool) (s : ResourceState) : ResourceState :=
  mkState (data s) (error s) (pending s) b (owners s).
Definition with_owners (n : Z) (s : ResourceState) : ResourceState :=
  mkState (data s) (error s) (pending s) (fresh s) n.

(** The object literal that [reset()] stores. *)
Definition initialState : ResourceState :=
  {| data := None; error := None; fresh := false; pending := false; owners := 0 |}.

(** What the promise raced in [executeFetch] resolves with:
    [typeof FETCH_TASK_ABORTED | T]. *)
Inductive FetchResult :=
| FETCH_TASK_ABORTED
| Fetched (v : T).

(** A JavaScript promise settles once; later [resolve]/[reject] calls are
    ignored. *)
Inductive Race :=
| Unsettled
| Resolved (r : FetchResult)
| Rejected (e : E).

Definition resolve (r : FetchResult) (p : Race) : Race :=
  match p with Unsettled => Resolved r | _ => p end.

Definition reject (e : E) (p : Race) : Race :=
  match p with Unsettled => Rejected e | _ => p end.

(** Callbacks handed to [onAbort]: the one [executeFetch] registers,
    [() => resolve(FETCH_TASK_ABORTED)], and those of the user's fetch
    function, of which only whether they throw is visible to the engine. *)
Inductive AbortHook :=
| EngineHook
| UserHook (throws : bool).

Inductive Event :=
| EvInvoke (l : loc) (seen : option ResourceState)
| EvHookError.

(** [initFetchAbort()]: the [hooks] array with [onAbort] and [abort]. *)
Definition initFetchAbort : list AbortHook := [].

Definition onAbort (fn : AbortHook) (hooks : list AbortHook) : list AbortHook :=
  hooks ++ [fn].

Definition run_hook (st : Race * list Event) (fn : AbortHook) : Race * list Event :=
  match fn with
  | EngineHook => (resolve FETCH_TASK_ABORTED st.1, st.2)
  | UserHook true => (st.1, st.2 ++ [EvHookError])
  | UserHook false => st
  end.

(** [abort: () => { for (const fn of hooks) { try { fn() } catch ... } }] *)
Definition abort (hooks : list AbortHook) (st : Race * list Event) : Race * list Event :=
  foldl run_hook st hooks.

(** The user's [fetch.fn], as far as the engine can observe its call: the
    hooks it registers through [onAbort] and whether the call itself
    throws.  The settling of the promise it returns is an event of its
    own. *)
Record FetchFn := {
  fn_registers : list bool;
  fn_throws : option E;
}.

(** Where the [async] function [executeFetch] stands: suspended at its
    [await], returned, or past the [.finally] callback of the caller. *)
Inductive Phase := Awaiting | Returned | Finalized.

Record FetchTask := mkTask {
  task_state : loc;
  task_hooks : list AbortHook;
  task_race : Race;
  task_phase : Phase;
}.

Definition with_race (p : Race) (t : FetchTask) : FetchTask :=
  mkTask (task_state t) (task_hooks t) p (task_phase t).
Definition with_phase (ph : Phase) (t : FetchTask) : FetchTask :=
  mkTask (task_state t) (task_hooks t) (task_race t) ph.

(** ** The state of one [useSwr] consumer and its store *)

Record World := mkWorld {
  heap : list ResourceState;
  store : AmnesiaStore.t;
  keyReactive : option ResourceKey;
  committed : bool;
  stateMissing : bool;
  scheduledResets : list ResourceKey;
  ownedScope : bool;
  resource : option ResourceKey;
  currentFetchTask : option nat;
  tasks : list FetchTask;
  log : list Event;
}.

Definition upd_heap (f : list ResourceState → list ResourceState) (w : World) : World :=
  mkWorld (f (heap w)) (store w) (keyReactive w) (committed w) (stateMissing w)
    (scheduledResets w) (ownedScope w) (resource w) (currentFetchTask w) (tasks w) (log w).
Definition upd_store (f : AmnesiaStore.t → AmnesiaStore.t) (w : World) : World :=
  mkWorld (heap w) (f (store w)) (keyReactive w) (committed w) (stateMissing w)
    (scheduledResets w) (ownedScope w) (resource w) (currentFetchTask w) (tasks w) (log w).
Definition upd_key (k : option ResourceKey) (w : World) : World :=
  mkWorld (heap w) (store w) k (committed w) (stateMissing w)
    (scheduledResets w) (ownedScope w) (resource w) (currentFetchTask w) (tasks w) (log w).
Definition upd_committed (b : bool) (w : World) : World :=
  mkWorld (heap w) (store w) (keyReactive w) b (stateMissing w)
    (scheduledResets w) (ownedScope w) (resource w) (currentFetchTask w) (tasks w) (log w).
Definition upd_missing (b : bool) (w : World) : World :=
  mkWorld (heap w) (store w) (keyReactive w) (committed w) b
    (scheduledResets w) (ownedScope w) (resource w) (currentFetchTask w) (tasks w) (log w).
Definition upd_scheduled (f : list ResourceKey → list ResourceKey) (w : World) : World :=
  mkWorld (heap w) (store w) (keyReactive w) (committed w) (stateMissing w)
    (f (scheduledResets w)) (ownedScope w) (resource w) (currentFetchTask w) (tasks w) (log w).
Definition upd_owned (b : bool) (w : World) : World :=
  mkWorld (heap w) (store w) (keyReactive w) (committed w) (stateMissing w)
    (scheduledResets w) b (resource w) (currentFetchTask w) (tasks w) (log w).
Definition upd_resource (r : option ResourceKey) (w : World) : World :=
  mkWorld (heap w) (store w) (keyReactive w) (committed w) (stateMissing w)
    (scheduledResets w) (ownedScope w) r (currentFetchTask w) (tasks w) (log w).
Definition upd_current (c : option nat) (w : World) : World :=
  mkWorld (heap w) (store w) (keyReactive w) (committed w) (stateMissing w)
    (scheduledResets w) (ownedScope w) (resource w) c (tasks w) (log w).
Definition upd_tasks (f : list FetchTask → list FetchTask) (w : World) : World :=
  mkWorld (heap w) (store w) (keyReactive w) (committed w) (stateMissing w)
    (scheduledResets w) (ownedScope w) (resource w) (currentFetchTask w) (f (tasks w)) (log w).
Definition upd_log (f : list Event → list Event) (w : World) : World :=
  mkWorld (heap w) (store w) (keyReactive w) (committed w) (stateMissing w)
    (scheduledResets w) (ownedScope w) (resource w) (currentFetchTask w) (tasks w) (f (log w)).

(** A consumer that has not been set up yet, over an empty store. *)
Definition initialWorld : World :=
  mkWorld [] AmnesiaStore.createAmnesiaStore None false false [] false None None [] [].

(** ** [useSwr]: the closures of one keyed scope

    Every function below takes the scope's [keyStatic] as a parameter, as
    the closures of [useSwr] capture it. *)

(** [const state = computed(() => store.get(keyStatic))] *)
Definition stateValue (keyStatic : ResourceKey) (w : World) : option loc :=
  store_get keyStatic (store w).

(** The fields seen through [state.value]. *)
Definition stateFields (keyStatic : ResourceKey) (w : World) : option ResourceState :=
  match stateValue keyStatic w with
  | Some l => heap w !! l
  | None => None
  end.

(** [function reset() { store.set(keyStatic, { data: null, ... }) }]: the
    object literal is a new object. *)
Definition reset (keyStatic : ResourceKey) (w : World) : World :=
  let l := length (heap w) in
  upd_store (store_set keyStatic (Some l)) (upd_heap (λ h, h ++ [initialState]) w).

(** [function markStale() { if (state.value) state.value.fresh = false }] *)
Definition markStale (keyStatic : ResourceKey) (w : World) : World :=
  match stateValue keyStatic w with
  | Some l => upd_heap (alter (with_fresh false) l) w
  | None => w
  end.

(** *** [useResourceOwnership] *)

(** [computed(() => !!state.value && state.value.owners === 1 && committed.value)] *)
Definition confirmed (keyStatic : ResourceKey) (w : World) : bool :=
  match stateFields keyStatic w with
  | Some s => (owners s =? 1)%Z && committed w
  | None => false
  end.

(** The callback of [watch(state, ...)]. *)
Definition ownershipWatch (keyStatic : ResourceKey) (w : World) : World :=
  match stateValue keyStatic w with
  | Some l =>
      upd_committed true
        (upd_heap (alter (λ s, with_owners (owners s + 1) s) l) w)
  | None => upd_committed false w
  end.

(** [onScopeDispose(() => { if (committed.value && state.value) state.value.owners-- })] *)
Definition ownershipDispose (keyStatic : ResourceKey) (w : World) : World :=
  if committed w then
    match stateValue keyStatic w with
    | Some l => upd_heap (alter (λ s, with_owners (owners s - 1) s) l) w
    | None => w
    end
  else w.

(** *** The bootstrap [whenever(() => !state.value, () => Promise.resolve().then(reset))] *)

Definition wheneverCallback (keyStatic : ResourceKey) (w : World) : World :=
  upd_scheduled (λ q, q ++ [keyStatic]) w.

Definition wheneverWatch (keyStatic : ResourceKey) (w : World) : World :=
  let v := negb (bool_decide (is_Some (stateValue keyStatic w))) in
  if Bool.eqb v (stateMissing w) then w
  else
    let w1 := upd_missing v w in
    if v then wheneverCallback keyStatic w1 else w1.

(** The microtask queued by the bootstrap: the oldest scheduled [reset]. *)
Definition runMicrotask (w : World) : World :=
  match scheduledResets w with
  | k :: q => reset k (upd_scheduled (λ _, q) w)
  | [] => w
  end.

(** *** [executeFetch] and the fetch trigger *)

(** [abort()] of the task's [initFetchAbort] pair. *)
Definition deliverAbort (t : nat) (w : World) : World :=
  match tasks w !! t with
  | Some task =>
      let r := abort (task_hooks task) (task_race task, log w) in
      upd_log (λ _, r.2) (upd_tasks (alter (with_race r.1) t) w)
  | None => w
  end.

(** [currentFetchTask.value?.abort(); currentFetchTask.value = null] *)
Definition abortFetchTaskIfThereIsSome (w : World) : World :=
  match currentFetchTask w with
  | Some t => upd_current None (deliverAbort t w)
  | None => upd_current None w
  end.

(** [computed(() => !!state.value && !state.value.pending && !state.value.fresh)] *)
Definition triggerExecuteFetch (keyStatic : ResourceKey) (w : World) : bool :=
  match stateFields keyStatic w with
  | Some s => negb (pending s) && negb (fresh s)
  | None => false
  end.

(** [executeFetch] up to its [await]: [state.pending = true], then the
    executor of the raced promise registers the engine's hook and calls
    [fetch.fn(onAbort)].  The call is logged together with the fields the
    fetch function finds in the state at that moment. *)
Definition executeFetch (fetch : FetchFn) (state : loc) (w : World) : World :=
  let w1 := upd_heap (alter (with_pending true) state) w in
  let hooks1 := onAbort EngineHook initFetchAbort in
  let w2 := upd_log (λ lg, lg ++ [EvInvoke state (heap w1 !! state)]) w1 in
  let hooks2 := foldl (λ hs b, onAbort (UserHook b) hs) hooks1 (fn_registers fetch) in
  let race := match fn_throws fetch with Some e => Rejected e | None => Unsettled end in
  upd_tasks (λ ts, ts ++ [mkTask state hooks2 race Awaiting]) w2.

(** The callback of [watch([triggerExecuteFetch, state], ...)]. *)
Definition fetchWatch (fetch : FetchFn) (keyStatic : ResourceKey) (w : World) : World :=
  if triggerExecuteFetch keyStatic w then
    let w1 := abortFetchTaskIfThereIsSome w in
    match stateValue keyStatic w1 with
    | Some l => upd_current (Some (length (tasks w1))) (executeFetch fetch l w1)
    | None => w1
    end
  else w.

(** The promise of [fetch.fn] settles: [.then(resolve)] or [.catch(reject)]. *)
Definition settleResolve (t : nat) (v : T) (w : World) : World :=
  upd_tasks (alter (λ task, with_race (resolve (Fetched v) (task_race task)) task) t) w.

Definition settleReject (t : nat) (e : E) (w : World) : World :=
  upd_tasks (alter (λ task, with_race (reject e (task_race task)) task) t) w.

(** [executeFetch] after its [await]: the commit of the result into the
    state object the task was given. *)
Definition commitSuccess (v : T) (s : ResourceState) : ResourceState :=
  with_pending false (with_error None (with_fresh true (with_data (Some v) s))).

Definition commitFailure (e : E) (s : ResourceState) : ResourceState :=
  with_pending false (with_fresh true (with_error (Some e) s)).

Definition resume (t : nat) (w : World) : World :=
  match tasks w !! t with
  | Some task =>
      match task_phase task, task_race task with
      | Awaiting, Resolved FETCH_TASK_ABORTED =>
          upd_tasks (alter (with_phase Returned) t) w
      | Awaiting, Resolved (Fetched v) =>
          upd_tasks (alter (with_phase Returned) t)
            (upd_heap (alter (commitSuccess v) (task_state task)) w)
      | Awaiting, Rejected e =>
          upd_tasks (alter (with_phase Returned) t)
            (upd_heap (alter (commitFailure e) (task_state task)) w)
      | _, _ => w
      end
  | None => w
  end.

(** [.finally(() => { if (promise === currentFetchTask.value?.promise)
    currentFetchTask.value = null })] *)
Definition finalize (t : nat) (w : World) : World :=
  match tasks w !! t with
  | Some task =>
      match task_phase task with
      | Returned =>
          let w1 := upd_tasks (alter (with_phase Finalized) t) w in
          if bool_decide (currentFetchTask w = Some t) then upd_current None w1 else w1
      | _ => w
      end
  | None => w
  end.

(** *** [useConditionalScope(ownershipConfirmed, ...)] *)

(** The setup of the ownership-confirmed scope: a new [currentFetchTask]
    ref, the immediate run of the fetch watcher, the resource handle. *)
Definition ownedSetup (fetch : FetchFn) (keyStatic : ResourceKey) (w : World) : World :=
  let w1 := upd_current None w in
  let w2 := fetchWatch fetch keyStatic w1 in
  upd_owned true (upd_resource (Some keyStatic) w2).

(** [onScopeDispose(() => { abortFetchTaskIfThereIsSome(); resource.value = null })] *)
Definition ownedDispose (w : World) : World :=
  upd_owned false (upd_resource None (abortFetchTaskIfThereIsSome w)).

(** The callback of [watch(condition, ...)]; a watcher only calls back
    when the watched value differs from the one it saw last, and the scope
    is alive exactly when that last value was true. *)
Definition conditionWatch (fetch : FetchFn) (keyStatic : ResourceKey) (w : World) : World :=
  let v := confirmed keyStatic w in
  if Bool.eqb v (ownedScope w) then w
  else if v then ownedSetup fetch keyStatic w
  else ownedDispose w.

(** *** [useKeyedScope(keyReactive, ...)] *)

Definition scopeKey (w : World) : option ResourceKey :=
  match keyReactive w with
  | Some k => if truthy k then Some k else None
  | None => None
  end.

(** [setup(key)]: the body of the callback given to [useKeyedScope], with
    the immediate runs of its watchers. *)
Definition keyedSetup (fetch : FetchFn) (keyStatic : ResourceKey) (w : World) : World :=
  let w1 := upd_committed false w in
  let w2 := ownershipWatch keyStatic w1 in
  let v := negb (bool_decide (is_Some (stateValue keyStatic w2))) in
  let w3 := upd_missing v w2 in
  let w4 := if v then wheneverCallback keyStatic w3 else w3 in
  conditionWatch fetch keyStatic w4.

(** [scope.stop()]: the cleanups of the scope run, then its child scope
    is stopped. *)
Definition keyedDispose (keyStatic : ResourceKey) (w : World) : World :=
  let w1 := ownershipDispose keyStatic w in
  if ownedScope w1 then ownedDispose w1 else w1.

(** The callback of [watch(key, ...)]. *)
Definition keyWatch (fetch : FetchFn) (key : option ResourceKey) (w : World) : World :=
  if bool_decide (key = keyReactive w) then w
  else
    let w1 := match scopeKey w with
              | Some k => keyedDispose k w
              | None => w
              end in
    let w2 := upd_key key w1 in
    match key with
    | Some k => if truthy k then keyedSetup fetch k w2 else w2
    | None => w2
    end.

(** ** Executions

    The reactive scheduler, the promise job queue, the user and the code
    that shares the store decide what runs next.  An execution is any
    sequence of the following events; every interleaving the real
    scheduler can produce is one of them. *)
Inductive Label :=
| LKey (fetch : FetchFn) (key : option ResourceKey)
| LOwnership
| LWhenever
| LCondition (fetch : FetchFn)
| LFetch (fetch : FetchFn)
| LMicrotask
| LReset (k : ResourceKey)
| LMarkStale (k : ResourceKey)
| LClear (k : ResourceKey)
| LClearAll
| LWrite (k : ResourceKey) (s : ResourceState)
| LResolve (t : nat) (v : T)
| LReject (t : nat) (e : E)
| LResume (t : nat)
| LFinally (t : nat).

(** A watcher of the keyed scope runs only while that scope is alive, the
    fetch watcher only while the ownership-confirmed scope is. *)
Definition inScope (f : ResourceKey → World → World) (w : World) : World :=
  match scopeKey w with
  | Some k => f k w
  | None => w
  end.

(** Code outside the composable assigns the fields of the state object
    that the store holds for [k]. *)
Definition externalWrite (k : ResourceKey) (s : ResourceState) (w : World) : World :=
  match stateValue k w with
  | Some l => upd_heap (alter (λ _, s) l) w
  | None => w
  end.

Definition step (lbl : Label) (w : World) : World :=
  match lbl with
  | LKey fetch key => keyWatch fetch key w
  | LOwnership => inScope ownershipWatch w
  | LWhenever => inScope wheneverWatch w
  | LCondition fetch => inScope (conditionWatch fetch) w
  | LFetch fetch => if ownedScope w then inScope (fetchWatch fetch) w else w
  | LMicrotask => runMicrotask w
  | LReset k => reset k w
  | LMarkStale k => markStale k w
  | LClear k => upd_store (store_set k None) w
  | LClearAll => upd_store AmnesiaStore.clear w
  | LWrite k s => externalWrite k s w
  | LResolve t v => settleResolve t v w
  | LReject t e => settleReject t e w
  | LResume t => resume t w
  | LFinally t => finalize t w
  end.

Definition run (ls : list Label) (w : World) : World :=
  foldl (λ acc lbl, step lbl acc) w ls.

(** ** Properties of worlds and executions *)

(** References are never dangling, and the first hook of a task is the
    one [executeFetch] registers before it calls the fetch function. *)
Definition wf (w : World) : Prop :=
  (∀ t task, tasks w !! t = Some task →
     task_state task < length (heap w) ∧ head (task_hooks task) = Some EngineHook) ∧
  (∀ k l, stateValue k w = Some l → l < length (heap w)).

(** What every piece of the engine respects: objects are never freed, a
    task keeps the object and the hooks it was created with, a settled
    race stays as it settled, and a store slot holds either what it held
    or an object allocated since. *)
Record evolves (w w' : World) : Prop := mkEvolves {
  ev_heap : length (heap w) ≤ length (heap w');
  ev_tasks : ∀ t task, tasks w !! t = Some task →
    ∃ task', tasks w' !! t = Some task' ∧
      task_state task' = task_state task ∧
      task_hooks task' = task_hooks task ∧
      (task_race task ≠ Unsettled → task_race task' = task_race task);
  ev_store : ∀ k l, stateValue k w' = Some l →
    stateValue k w = Some l ∨ length (heap w) ≤ l;
  ev_wf : wf w → wf w';
}.

(** Events that clear or replace the store's entry for [k]: [reset()] of a
    scope for [k] or an equivalent [store.set(k, {...})] from outside,
    [store.set(k, null)], and [store.storage.clear()]. *)
Definition resetsEntry (k : ResourceKey) (lbl : Label) : Prop :=
  lbl = LReset k ∨ lbl = LClear k ∨ lbl = LClearAll.

(** The three ways a consumer is unbound from the entry it is bound to:
    its keyed scope is disposed, the key changes (the key watcher stops
    the scope and sets up the next one), or the entry disappears from
    the store and the ownership watcher runs. *)
Inductive Unbinding :=
| ScopeDisposal
| KeyChange (fetch : FetchFn) (key : option ResourceKey)
| EntryDisappearance.

Definition unbind (u : Unbinding) (keyStatic : ResourceKey) (w : World) : World :=
  match u with
  | ScopeDisposal => keyedDispose keyStatic w
  | KeyChange fetch key => keyWatch fetch key w
  | EntryDisappearance => ownershipWatch keyStatic w
  end.

(** The unbinding rule in the words of the specification, for a consumer
    bound to the entry at [l]: [owners] of that entry drops by one if the
    consumer had committed and stays otherwise, the commitment flag is
    cleared, and [owners] is not negative afterwards. *)
Definition unbinding_as_specified
    (u : Unbinding) (keyStatic : ResourceKey) (l : loc) (w : World) : Prop :=
  let w' := unbind u keyStatic w in
  ∀ s, heap w !! l = Some s →
    ∃ s', heap w' !! l = Some s' ∧
      owners s' = (owners s - (if committed w then 1 else 0))%Z ∧
      committed w' = false ∧
      (0 ≤ owners s')%Z.

(** The fields outside the heap and the tasks that decide what the
    watchers of a scope do. *)
Definition control (w : World) : AmnesiaStore.t * option ResourceKey * bool * bool :=
  (store w, keyReactive w, committed w, ownedScope w).

(** The orders in which the watchers of the scope may be flushed once the
    store holds a new object: the ownership watcher, the watcher of
    [ownershipConfirmed] and the fetch watcher; a watcher whose value
    changes again during the flush runs again. *)
Definition flushOrders (fetch : FetchFn) : list (list Label) :=
  [ [LOwnership; LCondition fetch; LFetch fetch];
    [LCondition fetch; LOwnership; LCondition fetch; LFetch fetch];
    [LFetch fetch; LOwnership; LCondition fetch] ].

(** A new fetch, the task [n], is under way for the entry at [l]. *)
Definition refetching (l n : nat) (w : World) : Prop :=
  ownedScope w = true ∧
  currentFetchTask w = Some n ∧
  (∃ task, tasks w !! n = Some task ∧ task_state task = l ∧
           task_phase task = Awaiting) ∧
  heap w !! l = Some {| data := None; error := None; pending := true;
                        fresh := false; owners := 1 |}.

(** Whether a hook fails when it is called, and whether it is the hook of
    [executeFetch]. *)
Definition hookThrows (fn : AbortHook) : bool :=
  match fn with UserHook true => true | _ => false end.

Definition isEngineHook (fn : AbortHook) : bool :=
  match fn with EngineHook => true | _ => false end.

(** No fetch task can still commit: every race is settled. *)
Definition quiet (w : World) : Prop :=
  ∀ t task, tasks w !! t = Some task → task_race task ≠ Unsettled.

(** How the engine keeps its tasks and its handle: a task whose race is
    unsettled is the current task and still awaits; there is a current
    task and a resource handle only while the ownership-confirmed scope
    is alive, and the handle carries the key of the keyed scope. *)
Definition engineInv (w : World) : Prop :=
  (∀ t task, tasks w !! t = Some task → task_race task = Unsettled →
     currentFetchTask w = Some t ∧ task_phase task = Awaiting) ∧
  (ownedScope w = false → currentFetchTask w = None ∧ resource w = None) ∧
  (ownedScope w = true → resource w = scopeKey w ∧ is_Some (scopeKey w)).

(** The engine at rest: no live task, no current task, no handle. *)
Definition idle (w : World) : Prop :=
  quiet w ∧ currentFetchTask w = None ∧ ownedScope w = false ∧ resource w = None.

(** The fields [engineInv] speaks about. *)
Definition engineView (w : World)
    : list FetchTask * option nat * bool * option ResourceKey * option ResourceKey :=
  (tasks w, currentFetchTask w, ownedScope w, resource w, keyReactive w).

(** The events that belong to the fetch engine and its commands, as
    opposed to the ownership watcher, the key watcher, [reset()] and
    writers outside the composable. *)
Definition engineLabel (lbl : Label) : bool :=
  match lbl with
  | LWhenever | LCondition _ | LFetch _ | LMarkStale _ | LClear _ | LClearAll
  | LResolve _ _ | LReject _ _ | LResume _ | LFinally _ => true
  | LKey _ _ | LOwnership | LMicrotask | LReset _ | LWrite _ _ => false
  end.

(** *** [normalizeFetch] and the key of a configuration *)

(** The [key] property of a configuration object: missing, present with
    the value [undefined], or a key. *)
Inductive KeyProperty :=
| KeyMissing
| KeyUndefined
| KeyGiven (k : ResourceKey).

(** The value of [params.fetch] after [unref]: a falsy value, a fetch
    function, or an object [{ key?, fn }]. *)
Inductive FetchConfig :=
| ConfigFalsy
| ConfigFunction (fn : FetchFn)
| ConfigObject (key : KeyProperty) (fn : FetchFn).

(** What [normalizeFetch] returns; the spread [{ key: ANONYMOUS_KEY,
    ...value }] copies a [key] that is present, also when it is
    [undefined]. *)
Record KeyedFetchFn := {
  kf_key : option ResourceKey;
  kf_fn : FetchFn;
}.

Definition normalizeFetch (value : FetchConfig) : option KeyedFetchFn :=
  match value with
  | ConfigFalsy => None
  | ConfigFunction fn => Some {| kf_key := Some ANONYMOUS_KEY; kf_fn := fn |}
  | ConfigObject KeyMissing fn => Some {| kf_key := Some ANONYMOUS_KEY; kf_fn := fn |}
  | ConfigObject KeyUndefined fn => Some {| kf_key := None; kf_fn := fn |}
  | ConfigObject (KeyGiven k) fn => Some {| kf_key := Some k; kf_fn := fn |}
  end.

(** [computed(() => fetch.value?.key ?? null)] *)
Definition keyOfConfig (value : FetchConfig) : option ResourceKey :=
  match normalizeFetch value with
  | Some kf => kf_key kf
  | None => None
  end.

(** A fetch function for the runs of the key watcher that set up no
    scope and so never call one. *)
Definition noFetch : FetchFn := {| fn_registers := []; fn_throws := None |}.

(** The run of the key watcher after the configuration has become
    [value]. *)
Definition reconfigure (value : FetchConfig) (w : World) : World :=
  match normalizeFetch value with
  | Some kf => keyWatch (kf_fn kf) (kf_key kf) w
  | None => keyWatch noFetch None w
  end.

(** Whether a configuration gives [useKeyedScope] a key it sets a scope
    up for. *)
Definition enabled (value : FetchConfig) : bool :=
  match keyOfConfig value with
  | Some k => truthy k
  | None => false
  end.

(** ** The amnesia store *)

Lemma amnesia_get_set_eq k v st :
  AmnesiaStore.get k (AmnesiaStore.set k v st) = v.
Proof.
  unfold AmnesiaStore.get, AmnesiaStore.set; simpl.
  rewrite lookup_insert_eq. by destruct v.
Qed.

Lemma amnesia_get_set_ne k k' v st :
  k ≠ k' → AmnesiaStore.get k' (AmnesiaStore.set k v st) = AmnesiaStore.get k' st.
Proof.
  intros Hne. unfold AmnesiaStore.get, AmnesiaStore.set; simpl.
  by rewrite lookup_insert_ne.
Qed.

Lemma amnesia_get_sets_other k ops st :
  Forall (λ op, op.1 ≠ k) ops →
  AmnesiaStore.get k (AmnesiaStore.sets ops st) = AmnesiaStore.get k st.
Proof.
  unfold AmnesiaStore.sets.
  revert st. induction ops as [|[k' v] ops IH]; intros st Hall; [done|].
  apply Forall_cons in Hall as [Hk Hall]. simpl in *.
  rewrite IH by done. by apply amnesia_get_set_ne.
Qed.

(** C10. In the default amnesia store, [get] is a left inverse of [set]:
    after [set(k, s)] with a state [s], [get(k)] returns that same state;
    after [set(k, null)], and for a key that no [set] has touched since the
    store was created, [get(k)] returns null. *)
Theorem amnesia_get_left_inverse_of_set (k : ResourceKey) :
  (∀ s st, AmnesiaStore.get k (AmnesiaStore.set k (Some s) st) = Some s) ∧
  (∀ st, AmnesiaStore.get k (AmnesiaStore.set k None st) = None) ∧
  AmnesiaStore.get k AmnesiaStore.createAmnesiaStore = None ∧
  (∀ ops, Forall (λ op, op.1 ≠ k) ops →
     AmnesiaStore.get k (AmnesiaStore.sets ops AmnesiaStore.createAmnesiaStore) = None).
Proof.
  split_and!.
  - intros s st. apply amnesia_get_set_eq.
  - intros st. apply amnesia_get_set_eq.
  - done.
  - intros ops Hops. by rewrite amnesia_get_sets_other.
Qed.

(** ** How executions change the world *)

Lemma evolves_refl w : evolves w w.
Proof. split; eauto 10. Qed.

Lemma evolves_trans w1 w2 w3 : evolves w1 w2 → evolves w2 w3 → evolves w1 w3.
Proof.
  intros [Hh1 Ht1 Hs1 Hw1] [Hh2 Ht2 Hs2 Hw2]. split.
  - lia.
  - intros t task Htask.
    destruct (Ht1 _ _ Htask) as (task2 & Hl2 & Hst2 & Hhk2 & Hr2).
    destruct (Ht2 _ _ Hl2) as (task3 & Hl3 & Hst3 & Hhk3 & Hr3).
    exists task3. split_and!; [done|congruence|congruence|].
    intros Hne. rewrite Hr3; [by apply Hr2|]. by rewrite Hr2.
  - intros k l Hl. destruct (Hs2 _ _ Hl) as [Hsame|Hfresh].
    + apply Hs1 in Hsame. done.
    + right. lia.
  - eauto.
Qed.

(** Changes that leave the heap, the store and the tasks alone. *)
Lemma evolves_same w w' :
  heap w' = heap w → store w' = store w → tasks w' = tasks w → evolves w w'.
Proof.
  intros Hh Hs Ht. split.
  - by rewrite Hh.
  - intros t task Htask. exists task. by rewrite Ht.
  - intros k l. unfold stateValue. rewrite Hs. auto.
  - unfold wf, stateValue. by rewrite Hh, Hs, Ht.
Qed.

(** Assignments to fields of one state object. *)
Lemma evolves_heap_alter f l w : evolves w (upd_heap (alter f l) w).
Proof.
  split; simpl.
  - by rewrite length_alter.
  - eauto 10.
  - auto.
  - unfold wf, stateValue; simpl. by rewrite length_alter.
Qed.

(** Updates of one task that keep its object and hooks. *)
Lemma evolves_tasks_alter f t w :
  (∀ task, tasks w !! t = Some task →
     task_state (f task) = task_state task ∧
     task_hooks (f task) = task_hooks task ∧
     (task_race task ≠ Unsettled → task_race (f task) = task_race task)) →
  evolves w (upd_tasks (alter f t) w).
Proof.
  intros Hf. split; simpl.
  - done.
  - intros t' task Htask. destruct (decide (t = t')) as [->|Hne].
    + exists (f task). rewrite list_lookup_alter_eq, Htask.
      destruct (Hf task Htask) as (? & ? & ?). done.
    + exists task. rewrite list_lookup_alter_ne by done. done.
  - auto.
  - unfold wf, stateValue; simpl. intros [Htasks Hstore]. split; [|done].
    intros t' task'. destruct (decide (t = t')) as [->|Hne].
    + rewrite list_lookup_alter_eq.
      destruct (tasks w !! t') as [task|] eqn:Hl; simpl; [|done].
      intros [= <-]. destruct (Hf task eq_refl) as (-> & -> & _). eauto.
    + rewrite list_lookup_alter_ne by done. eauto.
Qed.

Lemma resolve_settled r p : p ≠ Unsettled → resolve r p = p.
Proof. by destruct p. Qed.

Lemma reject_settled e p : p ≠ Unsettled → reject e p = p.
Proof. by destruct p. Qed.

Lemma run_hook_settled st fn : st.1 ≠ Unsettled → (run_hook st fn).1 = st.1.
Proof. destruct st as [p lg], fn as [|[]]; simpl; [apply resolve_settled|done..]. Qed.

Lemma abort_settled hooks st : st.1 ≠ Unsettled → (abort hooks st).1 = st.1.
Proof.
  unfold abort. revert st. induction hooks as [|fn hooks IH]; intros st Hst; [done|].
  simpl. rewrite IH; rewrite run_hook_settled; done.
Qed.

(** The engine's hook is first, so an abort of an unsettled race resolves
    it with [FETCH_TASK_ABORTED], whatever the user's hooks do. *)
Lemma abort_engine_first hooks lg :
  head hooks = Some EngineHook →
  (abort hooks (Unsettled, lg)).1 = Resolved FETCH_TASK_ABORTED.
Proof.
  destruct hooks as [|fn hooks]; [done|]. intros [= ->].
  exact (abort_settled hooks (Resolved FETCH_TASK_ABORTED, lg) ltac:(done)).
Qed.

Lemma head_register_user regs hooks :
  head hooks = Some EngineHook →
  head (foldl (λ hs b, onAbort (UserHook b) hs) hooks regs) = Some EngineHook.
Proof.
  revert hooks. induction regs as [|b regs IH]; intros hooks Hh; [done|].
  simpl. apply IH. unfold onAbort. by destruct hooks.
Qed.

(** *** Each piece of the engine evolves the world *)

Lemma evolves_reset k w : evolves w (reset k w).
Proof.
  unfold reset. split; simpl.
  - rewrite length_app. lia.
  - eauto 10.
  - intros k' l. unfold stateValue; simpl.
    destruct (decide (k = k')) as [->|Hne].
    + rewrite amnesia_get_set_eq. intros [= <-]. right. lia.
    + rewrite amnesia_get_set_ne by done. auto.
  - unfold wf, stateValue; simpl. intros [Htasks Hstore].
    rewrite length_app; simpl. split.
    + intros t task Htask. destruct (Htasks _ _ Htask). split; [lia|done].
    + intros k' l. destruct (decide (k = k')) as [->|Hne].
      * rewrite amnesia_get_set_eq. intros [= <-]. lia.
      * rewrite amnesia_get_set_ne by done. intros Hl. apply Hstore in Hl. lia.
Qed.

Lemma evolves_clear k w : evolves w (upd_store (store_set k None) w).
Proof.
  assert (Hslot : ∀ k' l,
    AmnesiaStore.get k' (AmnesiaStore.set k None (store w)) = Some l →
    AmnesiaStore.get k' (store w) = Some l).
  { intros k' l. destruct (decide (k = k')) as [->|Hne].
    - by rewrite amnesia_get_set_eq.
    - by rewrite amnesia_get_set_ne. }
  split; simpl; [done|eauto 10|..].
  - intros k' l Hl. left. by apply Hslot.
  - unfold wf, stateValue; simpl. intros [Htasks Hstore]. split; [done|].
    intros k' l Hl. eauto.
Qed.

Lemma evolves_clearAll w : evolves w (upd_store AmnesiaStore.clear w).
Proof.
  split; simpl; [done|eauto 10|..].
  - intros k' l. unfold stateValue; simpl. unfold AmnesiaStore.get; simpl.
    by rewrite lookup_empty.
  - unfold wf, stateValue; simpl. intros [Htasks Hstore]. split; [done|].
    intros k' l. unfold AmnesiaStore.get; simpl. by rewrite lookup_empty.
Qed.

Lemma evolves_markStale k w : evolves w (markStale k w).
Proof.
  unfold markStale. case_match; [apply evolves_heap_alter|apply evolves_refl].
Qed.

Lemma evolves_externalWrite k s w : evolves w (externalWrite k s w).
Proof.
  unfold externalWrite. case_match; [apply evolves_heap_alter|apply evolves_refl].
Qed.

Lemma evolves_ownershipWatch k w : evolves w (ownershipWatch k w).
Proof.
  unfold ownershipWatch. case_match.
  - eapply evolves_trans; [apply evolves_heap_alter|by apply evolves_same].
  - by apply evolves_same.
Qed.

Lemma evolves_ownershipDispose k w : evolves w (ownershipDispose k w).
Proof.
  unfold ownershipDispose. repeat case_match;
    [apply evolves_heap_alter|apply evolves_refl..].
Qed.

Lemma evolves_wheneverWatch k w : evolves w (wheneverWatch k w).
Proof.
  unfold wheneverWatch, wheneverCallback.
  repeat case_match; (apply evolves_refl || by apply evolves_same).
Qed.

Lemma evolves_runMicrotask w : evolves w (runMicrotask w).
Proof.
  unfold runMicrotask. case_match; [apply evolves_refl|].
  eapply evolves_trans; [|apply evolves_reset]. by apply evolves_same.
Qed.

Lemma evolves_deliverAbort t w : evolves w (deliverAbort t w).
Proof.
  unfold deliverAbort. destruct (tasks w !! t) as [task|] eqn:Htask;
    [|apply evolves_refl].
  eapply evolves_trans; [apply evolves_tasks_alter|by apply evolves_same].
  intros task' Htask'. simpl.
  assert (task' = task) as -> by congruence.
  split_and!; [done..|]. intros Hne.
  by apply (abort_settled (task_hooks task) (task_race task, log w)).
Qed.

Lemma evolves_abortFetchTaskIfThereIsSome w :
  evolves w (abortFetchTaskIfThereIsSome w).
Proof.
  unfold abortFetchTaskIfThereIsSome. case_match.
  - eapply evolves_trans; [apply evolves_deliverAbort|by apply evolves_same].
  - by apply evolves_same.
Qed.

Lemma evolves_executeFetch fetch l w :
  (wf w → l < length (heap w)) → evolves w (executeFetch fetch l w).
Proof.
  intros Hl. unfold executeFetch. split; simpl.
  - by rewrite length_alter.
  - intros t task Htask. exists task. split; [|done].
    apply lookup_app_l_Some. done.
  - auto.
  - unfold wf, stateValue; simpl. intros Hwf.
    pose proof (Hl Hwf) as Hlt. destruct Hwf as [Htasks Hstore].
    rewrite length_alter. split; [|done].
    intros t task [Hold|[_ Hnew]]%lookup_app_Some; [eauto|].
    destruct (t - length (tasks w)) as [|n]; simpl in Hnew; [|done].
    injection Hnew as <-. simpl. split; [done|].
    by apply head_register_user.
Qed.

Lemma evolves_fetchWatch fetch k w : evolves w (fetchWatch fetch k w).
Proof.
  unfold fetchWatch. case_match; [|apply evolves_refl].
  eapply evolves_trans; [apply evolves_abortFetchTaskIfThereIsSome|].
  destruct (stateValue k (abortFetchTaskIfThereIsSome w)) as [l|] eqn:Hl;
    [|apply evolves_refl].
  eapply evolves_trans; [apply evolves_executeFetch|by apply evolves_same].
  intros [_ Hstore]. eauto.
Qed.

Lemma evolves_settleResolve t v w : evolves w (settleResolve t v w).
Proof.
  apply evolves_tasks_alter. intros task _. simpl. split_and!; [done..|].
  apply resolve_settled.
Qed.

Lemma evolves_settleReject t e w : evolves w (settleReject t e w).
Proof.
  apply evolves_tasks_alter. intros task _. simpl. split_and!; [done..|].
  apply reject_settled.
Qed.

Lemma evolves_with_phase ph t w : evolves w (upd_tasks (alter (with_phase ph) t) w).
Proof. apply evolves_tasks_alter. intros task _. done. Qed.

Lemma evolves_resume t w : evolves w (resume t w).
Proof.
  unfold resume. repeat case_match; try apply evolves_refl;
    try apply evolves_with_phase;
    (eapply evolves_trans; [apply evolves_heap_alter|apply evolves_with_phase]).
Qed.

Lemma evolves_finalize t w : evolves w (finalize t w).
Proof.
  unfold finalize. repeat case_match; try apply evolves_refl;
    try apply evolves_with_phase.
  eapply evolves_trans; [apply evolves_with_phase|by apply evolves_same].
Qed.

Lemma evolves_ownedSetup fetch k w : evolves w (ownedSetup fetch k w).
Proof.
  unfold ownedSetup.
  eapply evolves_trans; [by apply (evolves_same w (upd_current None w))|].
  eapply evolves_trans; [apply evolves_fetchWatch|by apply evolves_same].
Qed.

Lemma evolves_ownedDispose w : evolves w (ownedDispose w).
Proof.
  unfold ownedDispose.
  eapply evolves_trans; [apply evolves_abortFetchTaskIfThereIsSome|].
  by apply evolves_same.
Qed.

Lemma evolves_conditionWatch fetch k w : evolves w (conditionWatch fetch k w).
Proof.
  unfold conditionWatch. repeat case_match;
    auto using evolves_refl, evolves_ownedSetup, evolves_ownedDispose.
Qed.

Lemma evolves_keyedSetup fetch k w : evolves w (keyedSetup fetch k w).
Proof.
  unfold keyedSetup, wheneverCallback.
  eapply evolves_trans; [|apply evolves_conditionWatch].
  eapply evolves_trans; [by apply (evolves_same w (upd_committed false w))|].
  eapply evolves_trans; [apply evolves_ownershipWatch|].
  case_match; by apply evolves_same.
Qed.

Lemma evolves_keyedDispose k w : evolves w (keyedDispose k w).
Proof.
  unfold keyedDispose.
  eapply evolves_trans; [apply evolves_ownershipDispose|].
  case_match; [apply evolves_ownedDispose|apply evolves_refl].
Qed.

Lemma evolves_keyWatch fetch key w : evolves w (keyWatch fetch key w).
Proof.
  unfold keyWatch. case_match; [apply evolves_refl|].
  set (w1 := match scopeKey w with Some k => keyedDispose k w | None => w end).
  assert (evolves w w1) as H1.
  { subst w1. case_match; [apply evolves_keyedDispose|apply evolves_refl]. }
  eapply evolves_trans; [exact H1|].
  eapply evolves_trans; [by apply (evolves_same w1 (upd_key key w1))|].
  repeat case_match; auto using evolves_refl, evolves_keyedSetup.
Qed.

Lemma evolves_step lbl w : evolves w (step lbl w).
Proof.
  destruct lbl; simpl; unfold inScope; repeat case_match;
    auto using evolves_refl, evolves_keyWatch, evolves_ownershipWatch,
      evolves_wheneverWatch, evolves_conditionWatch, evolves_fetchWatch,
      evolves_runMicrotask, evolves_reset, evolves_markStale, evolves_clear,
      evolves_clearAll, evolves_externalWrite, evolves_settleResolve,
      evolves_settleReject, evolves_resume, evolves_finalize.
Qed.

Lemma run_snoc ls lbl w : run (ls ++ [lbl]) w = step lbl (run ls w).
Proof. unfold run. by rewrite foldl_snoc. Qed.

Lemma run_app ls1 ls2 w : run (ls1 ++ ls2) w = run ls2 (run ls1 w).
Proof. unfold run. by rewrite foldl_app. Qed.

Lemma evolves_run ls w : evolves w (run ls w).
Proof.
  induction ls as [|lbl ls IH] using rev_ind; [apply evolves_refl|].
  rewrite run_snoc. eapply evolves_trans; [exact IH|apply evolves_step].
Qed.

Lemma wf_initialWorld : wf initialWorld.
Proof. split; [intros t task; by destruct t|done]. Qed.

Lemma wf_run ls : wf (run ls initialWorld).
Proof. apply (ev_wf _ _ (evolves_run ls initialWorld)), wf_initialWorld. Qed.

(** ** What a settling task writes *)

(** The continuation of [executeFetch] assigns fields of the object the
    task was given and of no other object. *)
Lemma resume_heap_other t w l :
  (∀ task, tasks w !! t = Some task → task_state task ≠ l) →
  heap (resume t w) !! l = heap w !! l.
Proof.
  intros Hne. unfold resume.
  destruct (tasks w !! t) as [task|] eqn:Htask; [|done].
  specialize (Hne task eq_refl).
  repeat case_match; simpl; try done; by rewrite list_lookup_alter_ne.
Qed.

(** A task whose race was resolved with [FETCH_TASK_ABORTED] returns
    without an assignment. *)
Lemma resume_heap_aborted t w task :
  tasks w !! t = Some task →
  task_race task = Resolved FETCH_TASK_ABORTED →
  heap (resume t w) = heap w.
Proof.
  intros Htask Hrace. unfold resume. rewrite Htask, Hrace.
  by destruct (task_phase task).
Qed.

Lemma heap_deliverAbort t w : heap (deliverAbort t w) = heap w.
Proof. unfold deliverAbort. by case_match. Qed.

Lemma store_deliverAbort t w : store (deliverAbort t w) = store w.
Proof. unfold deliverAbort. by case_match. Qed.

Lemma tasks_deliverAbort_cancelled t w task :
  tasks w !! t = Some task →
  head (task_hooks task) = Some EngineHook →
  task_race task = Unsettled →
  tasks (deliverAbort t w) !! t = Some (with_race (Resolved FETCH_TASK_ABORTED) task).
Proof.
  intros Htask Hhead Hrace. unfold deliverAbort. rewrite Htask; simpl.
  rewrite list_lookup_alter_eq, Htask, Hrace; simpl.
  by rewrite abort_engine_first.
Qed.

(** Once the abort signal has reached a task in flight, its race stays
    resolved with [FETCH_TASK_ABORTED] through everything that follows. *)
Lemma cancelled_stays_cancelled t w task post :
  tasks w !! t = Some task →
  head (task_hooks task) = Some EngineHook →
  task_race task = Unsettled →
  ∃ task', tasks (run post (deliverAbort t w)) !! t = Some task' ∧
           task_race task' = Resolved FETCH_TASK_ABORTED.
Proof.
  intros Htask Hhead Hrace.
  pose proof (tasks_deliverAbort_cancelled _ _ _ Htask Hhead Hrace) as Hc.
  destruct (ev_tasks _ _ (evolves_run post (deliverAbort t w)) _ _ Hc)
    as (task' & Hl & _ & _ & Hr).
  exists task'. split; [done|]. by rewrite Hr.
Qed.

Lemma resetsEntry_fresh k lbl w l :
  resetsEntry k lbl →
  stateValue k (step lbl w) = Some l → length (heap w) ≤ l.
Proof.
  unfold stateValue. intros [->|[->| ->]]; simpl.
  - rewrite amnesia_get_set_eq. intros [= <-]. done.
  - by rewrite amnesia_get_set_eq.
  - unfold AmnesiaStore.get; simpl. by rewrite lookup_empty.
Qed.

(** The entry a reset leaves in the store is out of reach of the tasks
    dispatched before it. *)
Lemma resume_spares_reset_entry
    (k : ResourceKey) (w0 : World) (t : nat) (task : FetchTask)
    (pre post : list Label) (rst : Label) :
  wf w0 →
  tasks w0 !! t = Some task →
  resetsEntry k rst →
  let w := run (pre ++ rst :: post) w0 in
  ∀ l, stateValue k w = Some l →
    l ≠ task_state task ∧ heap (resume t w) !! l = heap w !! l.
Proof.
  intros Hwf Htask Hrst w l Hl. subst w.
  rewrite run_app in Hl |- *. simpl in Hl |- *.
  change (foldl (λ acc lbl, step lbl acc) (step rst (run pre w0)) post)
    with (run post (step rst (run pre w0))) in *.
  set (w1 := run pre w0) in *. set (w2 := step rst w1) in *.
  pose proof (evolves_run pre w0) as Hpre. fold w1 in Hpre.
  pose proof (evolves_step rst w1) as Hstep. fold w2 in Hstep.
  pose proof (evolves_run post w2) as Hpost.
  destruct Hwf as [Htasks _]. destruct (Htasks _ _ Htask) as [Hlt _].
  assert (length (heap w1) ≤ l) as Hfresh.
  { destruct (ev_store _ _ Hpost _ _ Hl) as [Hsame|Hnew].
    - by apply (resetsEntry_fresh k rst w1).
    - pose proof (ev_heap _ _ Hstep). lia. }
  pose proof (ev_heap _ _ Hpre) as Hlen.
  split; [lia|].
  apply resume_heap_other. intros task' Htask'.
  destruct (ev_tasks _ _ (evolves_trans _ _ _ Hpre (evolves_trans _ _ _ Hstep Hpost))
              _ _ Htask) as (task'' & Hl'' & Hst & _).
  assert (task'' = task') as -> by congruence. lia.
Qed.

(** C1. Take any execution in which a fetch task dispatched against the
    store's entry for key [k] is in flight, and in which the store's entry
    for [k] is then cleared or reset.  Whatever happens before and after
    the reset, when the task's continuation runs (on success or on
    failure) it changes no field of the entry that the store then holds
    for [k]: that entry is another object than the one the task writes,
    and its fields [data], [error], [pending], [fresh] (and [owners]) are
    the same before and after. *)
Theorem late_resolution_spares_reset_entry
    (k : ResourceKey) (ls0 pre post : list Label) (rst : Label)
    (t : nat) (task : FetchTask) :
  let w0 := run ls0 initialWorld in
  tasks w0 !! t = Some task →
  task_phase task = Awaiting →
  stateValue k w0 = Some (task_state task) →
  resetsEntry k rst →
  let w := run (pre ++ rst :: post) w0 in
  ∀ l, stateValue k w = Some l →
    l ≠ task_state task ∧ heap (resume t w) !! l = heap w !! l.
Proof.
  intros w0 Htask _ _ Hrst.
  apply (resume_spares_reset_entry k w0 t task pre post rst); [|done..].
  apply wf_run.
Qed.

Lemma abort_then_settle_keeps_heap
    (w : World) (t : nat) (task : FetchTask) (post : list Label) (v : T) (e : E) :
  wf w →
  tasks w !! t = Some task →
  task_race task = Unsettled →
  let w1 := deliverAbort t w in
  let w2 := run post w1 in
  heap w1 = heap w ∧
  heap (resume t w2) = heap w2 ∧
  heap (resume t (settleResolve t v w2)) = heap w2 ∧
  heap (resume t (settleReject t e w2)) = heap w2.
Proof.
  intros [Htasks _] Htask Hrace w1 w2.
  destruct (Htasks _ _ Htask) as [_ Hhead].
  split; [apply heap_deliverAbort|].
  split; [|split].
  - destruct (cancelled_stays_cancelled t w task post Htask Hhead Hrace)
      as (task' & Hl & Hr).
    by apply (resume_heap_aborted t w2 task').
  - destruct (cancelled_stays_cancelled t w task (post ++ [LResolve t v])
                Htask Hhead Hrace) as (task' & Hl & Hr).
    rewrite run_snoc in Hl. simpl in Hl.
    by rewrite (resume_heap_aborted t _ task').
  - destruct (cancelled_stays_cancelled t w task (post ++ [LReject t e])
                Htask Hhead Hrace) as (task' & Hl & Hr).
    rewrite run_snoc in Hl. simpl in Hl.
    by rewrite (resume_heap_aborted t _ task').
Qed.

(** C2. In every execution, when the abort signal reaches a task whose
    race is still unsettled, the delivery itself leaves every state object
    as it is, and so does the task when the operation resolves or rejects
    afterwards, at whatever later point of the execution: no field
    ([data], [error], [pending], [fresh], [owners]) of any cache entry is
    assigned on either path. *)
Theorem aborted_task_mutates_nothing
    (ls0 post : list Label) (t : nat) (task : FetchTask) (v : T) (e : E) :
  let w := run ls0 initialWorld in
  tasks w !! t = Some task →
  task_race task = Unsettled →
  let w1 := deliverAbort t w in
  let w2 := run post w1 in
  heap w1 = heap w ∧
  heap (resume t w2) = heap w2 ∧
  heap (resume t (settleResolve t v w2)) = heap w2 ∧
  heap (resume t (settleReject t e w2)) = heap w2.
Proof.
  intros w Htask Hrace.
  apply (abort_then_settle_keeps_heap w t task post v e); [|done..].
  apply wf_run.
Qed.

(** ** Ownership *)

(** C3. In every world, the [confirmed] signal of a consumer is true
    exactly when the store holds an entry for the bound key, the [owners]
    field of that entry equals 1, and the consumer's [committed] flag is
    set. *)
Theorem confirmed_iff (k : ResourceKey) (w : World) :
  confirmed k w = true ↔
  ∃ l s, stateValue k w = Some l ∧ heap w !! l = Some s ∧
         owners s = 1%Z ∧ committed w = true.
Proof.
  unfold confirmed, stateFields. split.
  - destruct (stateValue k w) as [l|]; [|done].
    destruct (heap w !! l) as [s|] eqn:Hs; [|done].
    intros [Ho Hc]%andb_true_iff. exists l, s.
    split_and!; [done..|lia|done].
  - intros (l & s & -> & -> & Ho & Hc). apply andb_true_iff. split; [lia|done].
Qed.

Lemma heap_abortFetchTaskIfThereIsSome w :
  heap (abortFetchTaskIfThereIsSome w) = heap w.
Proof.
  unfold abortFetchTaskIfThereIsSome. case_match; simpl; [|done].
  apply heap_deliverAbort.
Qed.

Lemma store_abortFetchTaskIfThereIsSome w :
  store (abortFetchTaskIfThereIsSome w) = store w.
Proof.
  unfold abortFetchTaskIfThereIsSome. case_match; simpl; [|done].
  apply store_deliverAbort.
Qed.

Lemma committed_abortFetchTaskIfThereIsSome w :
  committed (abortFetchTaskIfThereIsSome w) = committed w.
Proof.
  unfold abortFetchTaskIfThereIsSome, deliverAbort. by repeat case_match.
Qed.

Lemma keyedDispose_ownership k w :
  heap (keyedDispose k w) = heap (ownershipDispose k w) ∧
  store (keyedDispose k w) = store w ∧
  committed (keyedDispose k w) = committed w.
Proof.
  unfold keyedDispose, ownedDispose.
  assert (store (ownershipDispose k w) = store w ∧
          committed (ownershipDispose k w) = committed w) as [Hs Hc].
  { unfold ownershipDispose. by repeat case_match. }
  case_match; simpl;
    rewrite ?heap_abortFetchTaskIfThereIsSome, ?store_abortFetchTaskIfThereIsSome,
      ?committed_abortFetchTaskIfThereIsSome; done.
Qed.

(** C4, as the code has it.  Disposing the keyed scope (which is also what
    a key change does first) subtracts one from [owners] of the entry the
    store holds for the scope's key when the consumer's [committed] flag is
    set and such an entry exists, exactly once, and changes no [owners]
    field otherwise; it leaves the flag as it is.  When the entry has
    disappeared, the ownership watcher clears the flag and changes no
    state object.  A consumer that is not committed never decrements, so
    [owners] stays non-negative whenever a committed consumer is counted
    in it. *)
Theorem unbinding_decrements_committed_only (k : ResourceKey) (w : World) :
  let w' := unbind ScopeDisposal k w in
  committed w' = committed w ∧
  (∀ l s, stateValue k w = Some l → heap w !! l = Some s →
     heap w' !! l =
       Some (with_owners (owners s - (if committed w then 1 else 0)) s)) ∧
  (∀ l, stateValue k w ≠ Some l → heap w' !! l = heap w !! l) ∧
  (committed w = false → heap w' = heap w) ∧
  (∀ l s s', stateValue k w = Some l → heap w !! l = Some s →
     (0 ≤ owners s)%Z → (committed w = true → 1 ≤ owners s)%Z →
     heap w' !! l = Some s' → (0 ≤ owners s')%Z) ∧
  (stateValue k w = None →
     committed (unbind EntryDisappearance k w) = false ∧
     heap (unbind EntryDisappearance k w) = heap w) ∧
  (∀ fetch, scopeKey w = Some k →
     unbind (KeyChange fetch None) k w = upd_key None w').
Proof.
  intros w'. destruct (keyedDispose_ownership k w) as (Hh & _ & Hc).
  change (unbind ScopeDisposal k w) with (keyedDispose k w) in w'.
  assert (Hsame : ∀ l s, stateValue k w = Some l → heap w !! l = Some s →
     heap (ownershipDispose k w) !! l =
       Some (with_owners (owners s - (if committed w then 1 else 0)) s)).
  { intros l s Hl Hs. unfold ownershipDispose. rewrite Hl.
    destruct (committed w); cbn [heap upd_heap].
    - by rewrite list_lookup_alter_eq, Hs.
    - rewrite Hs. f_equal. destruct s; unfold with_owners; simpl.
      f_equal. lia. }
  split_and!.
  - exact Hc.
  - intros l s Hl Hs. subst w'. rewrite Hh. by apply Hsame.
  - intros l Hl. subst w'. rewrite Hh. unfold ownershipDispose.
    destruct (committed w); [|done].
    destruct (stateValue k w) as [l0|] eqn:Hl0; [|done]. cbn [heap upd_heap].
    rewrite list_lookup_alter_ne; [done|congruence].
  - intros Hnc. subst w'. rewrite Hh. unfold ownershipDispose. by rewrite Hnc.
  - intros l s s' Hl Hs Hnn Hcommitted. subst w'. rewrite Hh, (Hsame l s Hl Hs).
    intros [= <-]. simpl. destruct (committed w); [|lia].
    specialize (Hcommitted eq_refl). lia.
  - intros Hnone. unfold unbind, ownershipWatch. by rewrite Hnone.
  - intros fetch Hk. unfold unbind, keyWatch. rewrite Hk.
    rewrite bool_decide_false; [done|].
    unfold scopeKey in Hk. by destruct (keyReactive w).
Qed.

(** ** The fetch trigger *)

Lemma triggerExecuteFetch_iff k w :
  triggerExecuteFetch k w = true ↔
  ∃ l s, stateValue k w = Some l ∧ heap w !! l = Some s ∧
         pending s = false ∧ fresh s = false.
Proof.
  unfold triggerExecuteFetch, stateFields. split.
  - destruct (stateValue k w) as [l|]; [|done].
    destruct (heap w !! l) as [s|] eqn:Hs; [|done].
    intros [Hp Hf]%andb_true_iff. exists l, s.
    by destruct (pending s), (fresh s).
  - intros (l & s & -> & -> & -> & ->). done.
Qed.

Lemma tasks_abortFetchTaskIfThereIsSome_length w :
  length (tasks (abortFetchTaskIfThereIsSome w)) = length (tasks w).
Proof.
  unfold abortFetchTaskIfThereIsSome, deliverAbort.
  repeat case_match; simpl; by rewrite ?length_alter.
Qed.

(** What a triggered run of the fetch watcher amounts to. *)
Lemma fetchWatch_triggered fetch k w l :
  triggerExecuteFetch k w = true →
  stateValue k w = Some l →
  fetchWatch fetch k w =
    upd_current (Some (length (tasks w)))
      (executeFetch fetch l (abortFetchTaskIfThereIsSome w)).
Proof.
  intros Htrig Hl. unfold fetchWatch. rewrite Htrig.
  unfold stateValue in *. rewrite store_abortFetchTaskIfThereIsSome, Hl.
  by rewrite tasks_abortFetchTaskIfThereIsSome_length.
Qed.

Lemma executeFetch_new_task fetch l w :
  ∃ task, tasks (executeFetch fetch l w) = tasks w ++ [task] ∧
          task_state task = l ∧ task_phase task = Awaiting ∧
          head (task_hooks task) = Some EngineHook ∧
          task_race task =
            match fn_throws fetch with Some e => Rejected e | None => Unsettled end.
Proof.
  eexists. split; [reflexivity|]. simpl. split_and!; try done.
  by apply head_register_user.
Qed.

(** A run of the fetch watcher on a stale entry that is not pending. *)
Lemma fetchWatch_starts fetch k w l s :
  stateValue k w = Some l → heap w !! l = Some s →
  pending s = false → fresh s = false →
  let w' := fetchWatch fetch k w in
  heap w' !! l = Some (with_pending true s) ∧
  log w' = log (abortFetchTaskIfThereIsSome w) ++
             [EvInvoke l (Some (with_pending true s))] ∧
  currentFetchTask w' = Some (length (tasks w)) ∧
  length (tasks w') = S (length (tasks w)) ∧
  ∃ task, tasks w' !! length (tasks w) = Some task ∧
          task_state task = l ∧ task_phase task = Awaiting.
Proof.
  intros Hl Hs Hp Hf. simpl.
  rewrite (fetchWatch_triggered fetch k w l);
    [|apply triggerExecuteFetch_iff; eauto 10|done].
  destruct (executeFetch_new_task fetch l (abortFetchTaskIfThereIsSome w))
    as (task & Htasks & Hst & Hph & _).
  cbn [heap log tasks currentFetchTask upd_current].
  rewrite Htasks. unfold executeFetch.
  cbn [heap log upd_heap upd_log upd_tasks].
  rewrite heap_abortFetchTaskIfThereIsSome.
  rewrite list_lookup_alter_eq, Hs. split_and!; [done..| |].
  - rewrite length_app, tasks_abortFetchTaskIfThereIsSome_length. simpl. lia.
  - exists task. split; [|done].
    rewrite <- (tasks_abortFetchTaskIfThereIsSome_length w).
    by rewrite list_lookup_middle.
Qed.

Lemma step_fetch_in_scope fetch k w :
  scopeKey w = Some k → ownedScope w = true →
  step (LFetch fetch) w = fetchWatch fetch k w.
Proof. intros Hk Ho. simpl. unfold inScope. by rewrite Ho, Hk. Qed.

Lemma fetch_step_starts fetch k w l s :
  scopeKey w = Some k → ownedScope w = true →
  stateValue k w = Some l → heap w !! l = Some s →
  pending s = false → fresh s = false →
  let w' := step (LFetch fetch) w in
  heap w' !! l = Some (with_pending true s) ∧
  log w' = log (abortFetchTaskIfThereIsSome w) ++
             [EvInvoke l (Some (with_pending true s))] ∧
  currentFetchTask w' = Some (length (tasks w)) ∧
  length (tasks w') = S (length (tasks w)) ∧
  ∃ task, tasks w' !! length (tasks w) = Some task ∧
          task_state task = l ∧ task_phase task = Awaiting.
Proof.
  intros Hk Ho. rewrite (step_fetch_in_scope fetch k w Hk Ho).
  apply fetchWatch_starts.
Qed.

Lemma step_condition_in_scope fetch k w :
  scopeKey w = Some k → step (LCondition fetch) w = conditionWatch fetch k w.
Proof. intros Hk. simpl. unfold inScope. by rewrite Hk. Qed.

Lemma fetchWatch_not_triggered fetch k w :
  triggerExecuteFetch k w = false → fetchWatch fetch k w = w.
Proof. intros Hnt. unfold fetchWatch. by rewrite Hnt. Qed.

(** C5. While the ownership-confirmed scope is alive, a run of the fetch
    watcher begins a fetch task exactly when the entry exists with
    [pending == false] and [fresh == false], and otherwise does nothing.
    The task it begins has [pending = true] assigned before the fetch
    function is called: the call finds the flag set, and it is the last
    thing the synchronous part of the task does.  The same holds for the
    immediate run of the watcher when the scope is set up on a confirmed
    ownership, and no task is begun by the watcher of a scope that is not
    alive. *)
Theorem fetch_begins_iff_triggered (fetch : FetchFn) (k : ResourceKey) (w : World) :
  scopeKey w = Some k →
  let stale := ∃ l s, stateValue k w = Some l ∧ heap w !! l = Some s ∧
                      pending s = false ∧ fresh s = false in
  let begun w' := length (tasks w') = S (length (tasks w)) in
  (ownedScope w = true →
     let w' := step (LFetch fetch) w in
     (begun w' ↔ stale) ∧
     (¬ stale → w' = w) ∧
     (∀ l s, stateValue k w = Some l → heap w !! l = Some s →
        pending s = false → fresh s = false →
        heap w' !! l = Some (with_pending true s) ∧
        log w' = log (abortFetchTaskIfThereIsSome w) ++
                   [EvInvoke l (Some (with_pending true s))] ∧
        currentFetchTask w' = Some (length (tasks w)) ∧
        ∃ task, tasks w' !! length (tasks w) = Some task ∧
                task_state task = l ∧ task_phase task = Awaiting)) ∧
  (ownedScope w = false → step (LFetch fetch) w = w) ∧
  (ownedScope w = false → confirmed k w = true →
     (begun (step (LCondition fetch) w) ↔ stale)).
Proof.
  intros Hk stale begun.
  assert (Hstale : triggerExecuteFetch k w = true ↔ stale)
    by apply triggerExecuteFetch_iff.
  split_and!.
  - intros Howned w'.
    assert (Hidle : triggerExecuteFetch k w = false → w' = w).
    { intros Hnt. subst w'. rewrite (step_fetch_in_scope fetch k w Hk Howned).
      by apply fetchWatch_not_triggered. }
    split_and!.
    + split.
      * intros Hlen. apply Hstale.
        destruct (triggerExecuteFetch k w) eqn:Htrig; [done|].
        unfold begun in Hlen. rewrite Hidle in Hlen by done. lia.
      * intros (l & s & Hl & Hs & Hp & Hf).
        by destruct (fetch_step_starts fetch k w l s Hk Howned Hl Hs Hp Hf)
          as (_ & _ & _ & Hlen & _).
    + intros Hns. apply Hidle.
      destruct (triggerExecuteFetch k w) eqn:Htrig; [|done].
      exfalso. by apply Hns, Hstale.
    + intros l s Hl Hs Hp Hf.
      destruct (fetch_step_starts fetch k w l s Hk Howned Hl Hs Hp Hf)
        as (Hheap & Hlog & Hcur & _ & Hnew).
      done.
  - intros Hno. simpl. by rewrite Hno.
  - intros Hno Hconf. rewrite (step_condition_in_scope fetch k w Hk).
    unfold conditionWatch. rewrite Hconf, Hno. cbn [Bool.eqb].
    unfold begun, ownedSetup. cbn [tasks upd_owned upd_resource].
    assert (triggerExecuteFetch k (upd_current None w) = triggerExecuteFetch k w)
      as Hsame by done.
    split.
    + intros Hlen. apply Hstale.
      destruct (triggerExecuteFetch k w) eqn:Htrig; [done|].
      rewrite fetchWatch_not_triggered in Hlen by done.
      cbn [tasks upd_current] in Hlen. lia.
    + intros (l & s & Hl & Hs & Hp & Hf).
      by destruct (fetchWatch_starts fetch k (upd_current None w) l s Hl Hs Hp Hf)
        as (_ & _ & _ & Hlen & _).
Qed.

(** ** Commits *)

Lemma settleResolve_unsettled t v w task :
  tasks w !! t = Some task → task_race task = Unsettled →
  tasks (settleResolve t v w) !! t = Some (with_race (Resolved (Fetched v)) task) ∧
  heap (settleResolve t v w) = heap w.
Proof.
  intros Htask Hrace. unfold settleResolve; cbn [tasks heap upd_tasks].
  rewrite list_lookup_alter_eq, Htask. simpl. by rewrite Hrace.
Qed.

Lemma settleReject_unsettled t e w task :
  tasks w !! t = Some task → task_race task = Unsettled →
  tasks (settleReject t e w) !! t = Some (with_race (Rejected e) task) ∧
  heap (settleReject t e w) = heap w.
Proof.
  intros Htask Hrace. unfold settleReject; cbn [tasks heap upd_tasks].
  rewrite list_lookup_alter_eq, Htask. simpl. by rewrite Hrace.
Qed.

(** C6. When the operation of a task in flight resolves with [v] before
    any abort signal, the race is won by [v], and when the task resumes it
    assigns [data = { some: v }], [error = null], [fresh = true] and
    [pending = false] on the state object it was dispatched against,
    whatever that object holds by then; [owners] and every other object
    are left as they are. *)
Theorem success_commit (w : World) (t : nat) (task : FetchTask) (v : T) :
  tasks w !! t = Some task →
  task_phase task = Awaiting →
  task_race task = Unsettled →
  let won := with_race (Resolved (Fetched v)) task in
  tasks (settleResolve t v w) !! t = Some won ∧
  heap (settleResolve t v w) = heap w ∧
  ∀ w2 s, tasks w2 !! t = Some won → heap w2 !! task_state task = Some s →
    heap (resume t w2) !! task_state task =
      Some {| data := Some v; error := None; pending := false; fresh := true;
              owners := owners s |} ∧
    ∀ l, l ≠ task_state task → heap (resume t w2) !! l = heap w2 !! l.
Proof.
  intros Htask Hphase Hrace won.
  destruct (settleResolve_unsettled t v w task Htask Hrace) as [Hwon Hheap].
  split_and!; [done..|].
  intros w2 s Hwon2 Hs. split.
  - unfold resume. rewrite Hwon2. subst won. cbn [task_phase task_race with_race task_state].
    rewrite Hphase. cbn [heap upd_tasks upd_heap].
    by rewrite list_lookup_alter_eq, Hs.
  - intros l Hl. apply resume_heap_other. intros task' Htask'.
    assert (task' = won) as -> by congruence. done.
Qed.

(** C7. When the operation of a task in flight rejects with [err] before
    any abort signal, the race is lost to [err], and when the task resumes
    it assigns [error = { some: err }], [fresh = true] and
    [pending = false] on the state object it was dispatched against and
    leaves [data] (and [owners]) as found, so data fetched earlier is
    retained. *)
Theorem failure_commit (w : World) (t : nat) (task : FetchTask) (err : E) :
  tasks w !! t = Some task →
  task_phase task = Awaiting →
  task_race task = Unsettled →
  let lost := with_race (Rejected err) task in
  tasks (settleReject t err w) !! t = Some lost ∧
  heap (settleReject t err w) = heap w ∧
  ∀ w2 s, tasks w2 !! t = Some lost → heap w2 !! task_state task = Some s →
    heap (resume t w2) !! task_state task =
      Some {| data := data s; error := Some err; pending := false; fresh := true;
              owners := owners s |} ∧
    ∀ l, l ≠ task_state task → heap (resume t w2) !! l = heap w2 !! l.
Proof.
  intros Htask Hphase Hrace lost.
  destruct (settleReject_unsettled t err w task Htask Hrace) as [Hlost Hheap].
  split_and!; [done..|].
  intros w2 s Hlost2 Hs. split.
  - unfold resume. rewrite Hlost2. subst lost. cbn [task_phase task_race with_race task_state].
    rewrite Hphase. cbn [heap upd_tasks upd_heap].
    by rewrite list_lookup_alter_eq, Hs.
  - intros l Hl. apply resume_heap_other. intros task' Htask'.
    assert (task' = lost) as -> by congruence. done.
Qed.


(** ** Reset *)

Lemma control_fields w st key c o :
  control w = (st, key, c, o) →
  store w = st ∧ keyReactive w = key ∧ committed w = c ∧ ownedScope w = o.
Proof. unfold control. by intros [= -> -> -> ->]. Qed.

Lemma control_same w w' :
  control w' = control w →
  store w' = store w ∧ keyReactive w' = keyReactive w ∧
  committed w' = committed w ∧ ownedScope w' = ownedScope w.
Proof. apply control_fields. Qed.

Lemma scopeKey_of_key w w' :
  keyReactive w' = keyReactive w → scopeKey w' = scopeKey w.
Proof. unfold scopeKey. by intros ->. Qed.

Lemma stateValue_of_store k w w' :
  store w' = store w → stateValue k w' = stateValue k w.
Proof. unfold stateValue. by intros ->. Qed.

Lemma control_abortFetchTaskIfThereIsSome w :
  control (abortFetchTaskIfThereIsSome w) = control w.
Proof.
  unfold abortFetchTaskIfThereIsSome, deliverAbort. by repeat case_match.
Qed.

Lemma control_fetchWatch fetch k w : control (fetchWatch fetch k w) = control w.
Proof.
  unfold fetchWatch. case_match; [|done].
  destruct (stateValue k (abortFetchTaskIfThereIsSome w));
    cbn; apply control_abortFetchTaskIfThereIsSome.
Qed.

Lemma ownershipWatch_bound k w l s :
  stateValue k w = Some l → heap w !! l = Some s →
  let w' := ownershipWatch k w in
  heap w' !! l = Some (with_owners (owners s + 1) s) ∧
  control w' = (store w, keyReactive w, true, ownedScope w) ∧
  tasks w' = tasks w ∧ currentFetchTask w' = currentFetchTask w.
Proof.
  intros Hl Hs. unfold ownershipWatch. rewrite Hl. cbn.
  by rewrite list_lookup_alter_eq, Hs.
Qed.

Lemma step_ownership_in_scope k w :
  scopeKey w = Some k → step LOwnership w = ownershipWatch k w.
Proof. intros Hk. simpl. unfold inScope. by rewrite Hk. Qed.

Lemma confirmed_of k w l s :
  stateValue k w = Some l → heap w !! l = Some s →
  confirmed k w = (owners s =? 1)%Z && committed w.
Proof. intros Hl Hs. unfold confirmed, stateFields. by rewrite Hl, Hs. Qed.

Lemma conditionWatch_stable fetch k w :
  confirmed k w = ownedScope w → conditionWatch fetch k w = w.
Proof.
  intros Heq. unfold conditionWatch. rewrite Heq.
  by destruct (ownedScope w).
Qed.

Lemma fetchWatch_idle fetch k w l s :
  stateValue k w = Some l → heap w !! l = Some s → pending s = true →
  fetchWatch fetch k w = w.
Proof.
  intros Hl Hs Hp. unfold fetchWatch, triggerExecuteFetch, stateFields.
  by rewrite Hl, Hs, Hp.
Qed.

Lemma reset_entry k w :
  stateValue k (reset k w) = Some (length (heap w)) ∧
  heap (reset k w) !! length (heap w) = Some initialState ∧
  (∀ l, l < length (heap w) → heap (reset k w) !! l = heap w !! l) ∧
  control (reset k w) =
    (store_set k (Some (length (heap w))) (store w), keyReactive w,
     committed w, ownedScope w) ∧
  tasks (reset k w) = tasks w ∧ currentFetchTask (reset k w) = currentFetchTask w.
Proof.
  unfold reset, stateValue. cbn. rewrite amnesia_get_set_eq.
  split_and!; try done.
  - by rewrite list_lookup_middle.
  - intros l Hl. by rewrite lookup_app_l.
Qed.

Lemma reset_flush_ownership_first fetch k w :
  scopeKey w = Some k → ownedScope w = true →
  refetching (length (heap w)) (length (tasks w))
    (run [LOwnership; LCondition fetch; LFetch fetch] (reset k w)).
Proof.
  intros Hk Ho. unfold run. cbn [foldl].
  destruct (reset_entry k w) as (Hl & Hs & _ & Hc & Ht & _).
  apply control_fields in Hc as (Hst & Hkey & Hcm & Hown).
  set (w1 := reset k w) in *.
  assert (scopeKey w1 = Some k) as Hk1 by (by rewrite (scopeKey_of_key w w1)).
  rewrite (step_ownership_in_scope k w1 Hk1).
  destruct (ownershipWatch_bound k w1 _ _ Hl Hs) as (Hs2 & Hc2 & Ht2 & _).
  apply control_fields in Hc2 as (Hst2 & Hkey2 & Hcm2 & Hown2).
  set (w2 := ownershipWatch k w1) in *.
  assert (stateValue k w2 = Some (length (heap w))) as Hl2.
  { by rewrite (stateValue_of_store k w1 w2). }
  assert (scopeKey w2 = Some k) as Hk2 by (by rewrite (scopeKey_of_key w1 w2)).
  assert (ownedScope w2 = true) as Ho2 by congruence.
  rewrite (step_condition_in_scope fetch k w2 Hk2).
  rewrite conditionWatch_stable
    by (by rewrite (confirmed_of k w2 _ _ Hl2 Hs2), Hcm2, Ho2).
  destruct (fetch_step_starts fetch k w2 _ _ Hk2 Ho2 Hl2 Hs2 eq_refl eq_refl)
    as (Hs3 & _ & Hcur & _ & Htask).
  rewrite Ht2, Ht in Hcur, Htask.
  split_and!; try done.
  rewrite (step_fetch_in_scope fetch k w2 Hk2 Ho2).
  destruct (control_same _ _ (control_fetchWatch fetch k w2)) as (_ & _ & _ & ->).
  done.
Qed.

Lemma reset_flush_fetch_first fetch k w :
  scopeKey w = Some k → ownedScope w = true →
  refetching (length (heap w)) (length (tasks w))
    (run [LFetch fetch; LOwnership; LCondition fetch] (reset k w)).
Proof.
  intros Hk Ho. unfold run. cbn [foldl].
  destruct (reset_entry k w) as (Hl & Hs & _ & Hc & Ht & _).
  apply control_fields in Hc as (Hst & Hkey & Hcm & Hown).
  set (w1 := reset k w) in *.
  assert (scopeKey w1 = Some k) as Hk1 by (by rewrite (scopeKey_of_key w w1)).
  assert (ownedScope w1 = true) as Ho1 by congruence.
  destruct (fetch_step_starts fetch k w1 _ _ Hk1 Ho1 Hl Hs eq_refl eq_refl)
    as (Hs2 & _ & Hcur & _ & Htask).
  rewrite (step_fetch_in_scope fetch k w1 Hk1 Ho1) in *.
  destruct (control_same _ _ (control_fetchWatch fetch k w1))
    as (Hst2 & Hkey2 & Hcm2 & Hown2).
  set (w2 := fetchWatch fetch k w1) in *.
  assert (stateValue k w2 = Some (length (heap w))) as Hl2.
  { by rewrite (stateValue_of_store k w1 w2). }
  assert (scopeKey w2 = Some k) as Hk2 by (by rewrite (scopeKey_of_key w1 w2)).
  rewrite (step_ownership_in_scope k w2 Hk2).
  destruct (ownershipWatch_bound k w2 _ _ Hl2 Hs2) as (Hs3 & Hc3 & Ht3 & Hcur3).
  apply control_fields in Hc3 as (Hst3 & Hkey3 & Hcm3 & Hown3).
  set (w3 := ownershipWatch k w2) in *.
  assert (stateValue k w3 = Some (length (heap w))) as Hl3.
  { by rewrite (stateValue_of_store k w2 w3). }
  assert (scopeKey w3 = Some k) as Hk3 by (by rewrite (scopeKey_of_key w2 w3)).
  assert (ownedScope w3 = true) as Ho3 by congruence.
  rewrite (step_condition_in_scope fetch k w3 Hk3).
  rewrite conditionWatch_stable
    by (by rewrite (confirmed_of k w3 _ _ Hl3 Hs3), Hcm3, Ho3).
  unfold refetching. rewrite Ht3, Hcur3, Hcur, <- Ht. done.
Qed.

Lemma reset_flush_condition_first fetch k w :
  scopeKey w = Some k → ownedScope w = true →
  refetching (length (heap w)) (length (tasks w))
    (run [LCondition fetch; LOwnership; LCondition fetch; LFetch fetch] (reset k w)).
Proof.
  intros Hk Ho. unfold run. cbn [foldl].
  destruct (reset_entry k w) as (Hl & Hs & _ & Hc & Ht & _).
  apply control_fields in Hc as (Hst & Hkey & Hcm & Hown).
  set (w1 := reset k w) in *.
  assert (scopeKey w1 = Some k) as Hk1 by (by rewrite (scopeKey_of_key w w1)).
  assert (ownedScope w1 = true) as Ho1 by congruence.
  rewrite (step_condition_in_scope fetch k w1 Hk1).
  assert (conditionWatch fetch k w1 = ownedDispose w1) as ->.
  { unfold conditionWatch. by rewrite (confirmed_of k w1 _ _ Hl Hs), Ho1. }
  assert (heap (ownedDispose w1) = heap w1 ∧
          control (ownedDispose w1) = (store w1, keyReactive w1, committed w1, false) ∧
          length (tasks (ownedDispose w1)) = length (tasks w1))
    as (Hh2 & Hc2 & Ht2).
  { unfold ownedDispose, control.
    cbn [heap tasks store keyReactive committed ownedScope upd_owned upd_resource].
    rewrite heap_abortFetchTaskIfThereIsSome, tasks_abortFetchTaskIfThereIsSome_length.
    destruct (control_same _ _ (control_abortFetchTaskIfThereIsSome w1))
      as (-> & -> & -> & _). done. }
  apply control_fields in Hc2 as (Hst2 & Hkey2 & Hcm2 & Hown2).
  set (w2 := ownedDispose w1) in *.
  assert (stateValue k w2 = Some (length (heap w))) as Hl2.
  { by rewrite (stateValue_of_store k w1 w2). }
  assert (scopeKey w2 = Some k) as Hk2 by (by rewrite (scopeKey_of_key w1 w2)).
  rewrite (step_ownership_in_scope k w2 Hk2).
  rewrite <- Hh2 in Hs.
  destruct (ownershipWatch_bound k w2 _ _ Hl2 Hs) as (Hs3 & Hc3 & Ht3 & _).
  apply control_fields in Hc3 as (Hst3 & Hkey3 & Hcm3 & Hown3).
  set (w3 := ownershipWatch k w2) in *.
  assert (stateValue k w3 = Some (length (heap w))) as Hl3.
  { by rewrite (stateValue_of_store k w2 w3). }
  assert (scopeKey w3 = Some k) as Hk3 by (by rewrite (scopeKey_of_key w2 w3)).
  assert (ownedScope w3 = false) as Ho3 by congruence.
  rewrite (step_condition_in_scope fetch k w3 Hk3).
  assert (conditionWatch fetch k w3 = ownedSetup fetch k w3) as ->.
  { unfold conditionWatch. by rewrite (confirmed_of k w3 _ _ Hl3 Hs3), Hcm3, Ho3. }
  destruct (fetchWatch_starts fetch k (upd_current None w3) _ _ Hl3 Hs3 eq_refl eq_refl)
    as (Hs4 & _ & Hcur4 & _ & Htask4).
  destruct (control_same _ _ (control_fetchWatch fetch k (upd_current None w3)))
    as (Hst4 & Hkey4 & _ & _).
  set (w4 := ownedSetup fetch k w3).
  assert (heap w4 = heap (fetchWatch fetch k (upd_current None w3)) ∧
          tasks w4 = tasks (fetchWatch fetch k (upd_current None w3)) ∧
          currentFetchTask w4 = currentFetchTask (fetchWatch fetch k (upd_current None w3)) ∧
          store w4 = store (fetchWatch fetch k (upd_current None w3)) ∧
          keyReactive w4 = keyReactive (fetchWatch fetch k (upd_current None w3)) ∧
          ownedScope w4 = true) as (Hh5 & Ht5 & Hcur5 & Hst5 & Hkey5 & Ho5) by done.
  assert (scopeKey w4 = Some k) as Hk4.
  { rewrite <- Hk3. apply scopeKey_of_key. by rewrite Hkey5, Hkey4. }
  assert (stateValue k w4 = Some (length (heap w))) as Hl4.
  { rewrite <- Hl3. apply stateValue_of_store. by rewrite Hst5, Hst4. }
  rewrite (step_fetch_in_scope fetch k w4 Hk4 Ho5).
  rewrite <- Hh5 in Hs4.
  rewrite (fetchWatch_idle fetch k w4 _ _ Hl4 Hs4 eq_refl).
  unfold refetching. rewrite Ht5, Hcur5.
  cbn [tasks upd_current] in Hcur4, Htask4.
  rewrite Ht3, Ht2, Ht in Hcur4, Htask4. done.
Qed.

(** C9. [reset()] makes the store hold, for the current key, a new state
    object with the initial fields [{data: null, error: null,
    pending: false, fresh: false, owners: 0}]; the objects that existed
    before keep their fields.  On the new entry the fetch trigger is true,
    and while the ownership-confirmed scope is alive the flush of the
    scope's watchers, in whichever order, ends with a new fetch task
    dispatched against the new entry, [pending] set on it and the
    consumer counted in [owners]. *)
Theorem reset_replaces_and_retriggers (k : ResourceKey) (w : World) :
  let l := length (heap w) in
  stateValue k (reset k w) = Some l ∧
  heap (reset k w) !! l =
    Some {| data := None; error := None; pending := false; fresh := false;
            owners := 0 |} ∧
  (∀ l', l' < l → heap (reset k w) !! l' = heap w !! l') ∧
  triggerExecuteFetch k (reset k w) = true ∧
  (∀ fetch sched, scopeKey w = Some k → ownedScope w = true →
     sched ∈ flushOrders fetch →
     refetching l (length (tasks w)) (run sched (reset k w))).
Proof.
  intros l. destruct (reset_entry k w) as (Hl & Hs & Hold & _).
  split_and!; try done.
  - apply triggerExecuteFetch_iff. eauto 10.
  - intros fetch sched Hk Ho Hin. unfold flushOrders in Hin.
    repeat (apply elem_of_cons in Hin as [->|Hin]);
      [by apply reset_flush_ownership_first
      |by apply reset_flush_condition_first
      |by apply reset_flush_fetch_first
      |by apply elem_of_nil in Hin].
Qed.

(** ** Further properties of the store *)

Lemma amnesia_sets_snoc ops op st :
  AmnesiaStore.sets (ops ++ [op]) st =
    AmnesiaStore.set op.1 op.2 (AmnesiaStore.sets ops st).
Proof. unfold AmnesiaStore.sets. by rewrite fold_left_app. Qed.

(** X1. The amnesia store keeps, for every key, what the latest [set] for
    that key wrote: after any history of [set] calls, [get(k)] returns the
    value of the last call for [k], or what the store held for [k] before
    if the history has no call for [k]; calls for other keys never
    interfere.  After [storage.clear()] every key reads null. *)
Theorem amnesia_last_set_wins
    (k : ResourceKey) (ops : list (ResourceKey * option loc)) (st : AmnesiaStore.t) :
  AmnesiaStore.get k (AmnesiaStore.sets ops st) =
    match lastSet k ops with
    | Some v => v
    | None => AmnesiaStore.get k st
    end ∧
  AmnesiaStore.get k (AmnesiaStore.clear (AmnesiaStore.sets ops st)) = None.
Proof.
  split; [|unfold AmnesiaStore.get; simpl; by rewrite lookup_empty].
  induction ops as [|[k' v] ops IH] using rev_ind; [done|].
  rewrite amnesia_sets_snoc. unfold lastSet. rewrite foldl_snoc.
  fold (lastSet k ops). simpl.
  case_bool_decide as Hk.
  - subst k'. apply amnesia_get_set_eq.
  - rewrite amnesia_get_set_ne by done. exact IH.
Qed.

(** ** Further properties of the engine *)

Lemma resolve_idem r p : resolve r (resolve r p) = resolve r p.
Proof. by destruct p. Qed.

(** X2. [abort()] calls every registered hook, in order, whatever the
    hooks before it did: each failing hook is reported once and stops
    nothing, and the raced promise is resolved with [FETCH_TASK_ABORTED]
    exactly if the hook of [executeFetch] is among the hooks and the
    promise was not settled before. *)
Theorem abort_runs_every_hook (hooks : list AbortHook) (p : Race) (lg : list Event) :
  (abort hooks (p, lg)).2 =
    lg ++ replicate (length (List.filter hookThrows hooks)) EvHookError ∧
  (abort hooks (p, lg)).1 =
    if existsb isEngineHook hooks then resolve FETCH_TASK_ABORTED p else p.
Proof.
  unfold abort. revert p lg.
  induction hooks as [|fn hooks IH]; intros p lg; simpl.
  - by rewrite app_nil_r.
  - destruct fn as [|[]]; simpl.
    + destruct (IH (resolve FETCH_TASK_ABORTED p) lg) as [-> ->].
      split; [done|]. rewrite resolve_idem. by destruct (existsb isEngineHook hooks).
    + destruct (IH p (lg ++ [EvHookError])) as [-> ->].
      split; [|done]. by rewrite <- app_assoc.
    + apply IH.
Qed.

(** X3. A fetch function that throws when it is called makes the raced
    promise reject at once: the task started on a stale entry commits
    the thrown value as [error] when it resumes, with [fresh = true] and
    [pending = false], keeps [data], and an abort delivered in between
    changes nothing of this. *)
Theorem throwing_fetch_commits_error
    (fetch : FetchFn) (e : E) (k : ResourceKey) (w : World) (l : nat)
    (s : ResourceState) :
  fn_throws fetch = Some e →
  stateValue k w = Some l → heap w !! l = Some s →
  pending s = false → fresh s = false →
  let w1 := fetchWatch fetch k w in
  let t := length (tasks w) in
  let committed_state :=
    {| data := data s; error := Some e; pending := false; fresh := true;
       owners := owners s |} in
  currentFetchTask w1 = Some t ∧
  heap (resume t w1) !! l = Some committed_state ∧
  heap (resume t (deliverAbort t w1)) !! l = Some committed_state.
Proof.
  intros Hthrow Hl Hs Hp Hf w1 t cs.
  destruct (fetchWatch_starts fetch k w l s Hl Hs Hp Hf)
    as (Hheap & _ & Hcur & _ & _).
  fold w1 in Hheap, Hcur.
  assert (tasks w1 !! t =
            Some (mkTask l (foldl (λ hs b, onAbort (UserHook b) hs)
                              (onAbort EngineHook initFetchAbort) (fn_registers fetch))
                    (Rejected e) Awaiting)) as Htask.
  { subst w1 t. rewrite (fetchWatch_triggered fetch k w l);
      [|apply triggerExecuteFetch_iff; eauto 10|done].
    unfold executeFetch. cbn [tasks upd_current upd_tasks upd_log upd_heap].
    rewrite Hthrow.
    rewrite <- (tasks_abortFetchTaskIfThereIsSome_length w).
    by rewrite list_lookup_middle. }
  split_and!; [done| |].
  - unfold resume. rewrite Htask. cbn [task_phase task_race task_state heap upd_tasks upd_heap].
    by rewrite list_lookup_alter_eq, Hheap.
  - assert (tasks (deliverAbort t w1) !! t =
              Some (mkTask l (foldl (λ hs b, onAbort (UserHook b) hs)
                                (onAbort EngineHook initFetchAbort) (fn_registers fetch))
                      (Rejected e) Awaiting)) as Htask'.
    { unfold deliverAbort. rewrite Htask. cbn [tasks upd_log upd_tasks task_hooks task_race].
      rewrite list_lookup_alter_eq, Htask. simpl.
      unfold with_race; simpl. f_equal. f_equal.
      by apply (abort_settled _ (Rejected e, log w1)). }
    unfold resume. rewrite Htask'.
    cbn [task_phase task_race task_state heap upd_tasks upd_heap].
    by rewrite list_lookup_alter_eq, heap_deliverAbort, Hheap.
Qed.

(** X4. [markStale()] assigns [fresh = false] on the entry the store holds
    for the key and nothing else: [data], [error], [pending] and
    [owners] of that entry and every other object stay, and without an
    entry it does nothing.  If the entry is not pending and the
    ownership-confirmed scope is alive, the next run of the fetch watcher
    starts a refresh while the old [data] and [error] stay in the entry. *)
Theorem markStale_keeps_data_while_refreshing
    (fetch : FetchFn) (k : ResourceKey) (w : World) :
  (stateValue k w = None → markStale k w = w) ∧
  (∀ l s, stateValue k w = Some l → heap w !! l = Some s →
     heap (markStale k w) !! l = Some (with_fresh false s) ∧
     (∀ l', l' ≠ l → heap (markStale k w) !! l' = heap w !! l') ∧
     store (markStale k w) = store w ∧ tasks (markStale k w) = tasks w ∧
     (scopeKey w = Some k → ownedScope w = true → pending s = false →
        let w2 := step (LFetch fetch) (markStale k w) in
        heap w2 !! l =
          Some {| data := data s; error := error s; pending := true;
                  fresh := false; owners := owners s |} ∧
        currentFetchTask w2 = Some (length (tasks w)))).
Proof.
  split.
  - intros Hnone. unfold markStale. by rewrite Hnone.
  - intros l s Hl Hs. unfold markStale. rewrite Hl.
    cbn [heap store tasks upd_heap].
    assert (alter (with_fresh false) l (heap w) !! l = Some (with_fresh false s)) as Hs'
      by (by rewrite list_lookup_alter_eq, Hs).
    split_and!; try done.
    + intros l' Hne. by rewrite list_lookup_alter_ne.
    + intros Hk Ho Hp.
      destruct (fetch_step_starts fetch k (upd_heap (alter (with_fresh false) l) w)
                  l (with_fresh false s) Hk Ho Hl Hs' Hp eq_refl)
        as (Hheap & _ & Hcur & _).
      done.
Qed.

(** X5. Running the fetch watcher again without anything having changed
    is a no-op: the task it started has set [pending], so a second run,
    with whatever fetch function, starts nothing and leaves the world of
    the first run. *)
Theorem fetchWatch_rerun_is_noop (fetch fetch' : FetchFn) (k : ResourceKey) (w : World) :
  fetchWatch fetch' k (fetchWatch fetch k w) = fetchWatch fetch k w.
Proof.
  destruct (triggerExecuteFetch k w) eqn:Htrig.
  - destruct (proj1 (triggerExecuteFetch_iff k w) Htrig) as (l & s & Hl & Hs & Hp & Hf).
    destruct (fetchWatch_starts fetch k w l s Hl Hs Hp Hf) as (Hheap & _).
    apply (fetchWatch_idle fetch' k _ l (with_pending true s)); [|done..].
    rewrite <- Hl. apply stateValue_of_store.
    by destruct (control_same _ _ (control_fetchWatch fetch k w)) as (-> & _).
  - rewrite (fetchWatch_not_triggered fetch k w Htrig).
    by apply fetchWatch_not_triggered.
Qed.

(** *** One live task, one handle *)

Lemma engineInv_view w w' : engineView w' = engineView w → engineInv w → engineInv w'.
Proof.
  unfold engineView, engineInv, scopeKey. intros [= Ht Hc Ho Hr Hk].
  by rewrite Ht, Hc, Ho, Hr, Hk.
Qed.

Lemma idle_view w w' :
  tasks w' = tasks w → currentFetchTask w' = currentFetchTask w →
  ownedScope w' = ownedScope w → resource w' = resource w → idle w → idle w'.
Proof. unfold idle, quiet. by intros -> -> -> ->. Qed.

Lemma idle_engineInv w : idle w → engineInv w.
Proof.
  intros (Hq & Hc & Ho & Hr). split_and!.
  - intros t task Htask Hrace. by destruct (Hq t task Htask).
  - done.
  - congruence.
Qed.

Lemma wf_same w w' :
  heap w' = heap w → store w' = store w → tasks w' = tasks w → wf w → wf w'.
Proof. intros Hh Hs Ht. by apply (ev_wf _ _ (evolves_same w w' Hh Hs Ht)). Qed.

Lemma abort_makes_quiet w :
  wf w →
  (∀ t task, tasks w !! t = Some task → task_race task = Unsettled →
     currentFetchTask w = Some t) →
  quiet (abortFetchTaskIfThereIsSome w) ∧
  currentFetchTask (abortFetchTaskIfThereIsSome w) = None ∧
  ownedScope (abortFetchTaskIfThereIsSome w) = ownedScope w ∧
  resource (abortFetchTaskIfThereIsSome w) = resource w ∧
  keyReactive (abortFetchTaskIfThereIsSome w) = keyReactive w.
Proof.
  intros [Hwf _] Hlive. unfold abortFetchTaskIfThereIsSome.
  destruct (currentFetchTask w) as [t0|] eqn:Hcur.
  - split; [|unfold deliverAbort; by case_match].
    intros t task. unfold deliverAbort.
    destruct (tasks w !! t0) as [task0|] eqn:Ht0; cbn [tasks upd_current upd_log upd_tasks].
    + destruct (decide (t0 = t)) as [<-|Hne].
      * rewrite list_lookup_alter_eq, Ht0. intros [= <-]. cbn [task_race with_race].
        destruct (Hwf _ _ Ht0) as [_ Hhead].
        destruct (task_race task0) eqn:Hrace.
        -- by rewrite abort_engine_first.
        -- by rewrite (abort_settled _ (Resolved r, log w)).
        -- by rewrite (abort_settled _ (Rejected e, log w)).
      * rewrite list_lookup_alter_ne by done. intros Htask Hrace.
        specialize (Hlive _ _ Htask Hrace). congruence.
    + intros Htask Hrace. specialize (Hlive _ _ Htask Hrace). congruence.
  - split; [|done]. intros t task Htask Hrace. cbn [tasks upd_current] in Htask.
    specialize (Hlive _ _ Htask Hrace). done.
Qed.

Lemma fetchWatch_live fetch k w :
  wf w →
  (∀ t task, tasks w !! t = Some task → task_race task = Unsettled →
     currentFetchTask w = Some t ∧ task_phase task = Awaiting) →
  (∀ t task, tasks (fetchWatch fetch k w) !! t = Some task →
     task_race task = Unsettled →
     currentFetchTask (fetchWatch fetch k w) = Some t ∧ task_phase task = Awaiting) ∧
  ownedScope (fetchWatch fetch k w) = ownedScope w ∧
  resource (fetchWatch fetch k w) = resource w ∧
  keyReactive (fetchWatch fetch k w) = keyReactive w.
Proof.
  intros Hwf Hlive. unfold fetchWatch. case_match; [|done].
  destruct (abort_makes_quiet w Hwf) as (Hq & Hc & Ho & Hr & Hk).
  { intros t task Htask Hrace. by destruct (Hlive t task Htask Hrace). }
  destruct (stateValue k (abortFetchTaskIfThereIsSome w)) as [l|].
  - split; [|done].
    intros t task. unfold executeFetch. cbn [tasks currentFetchTask upd_current upd_tasks upd_log upd_heap].
    intros [Hold|[Hge Hnew]]%lookup_app_Some Hrace.
    + by destruct (Hq _ _ Hold).
    + destruct (t - length (tasks (abortFetchTaskIfThereIsSome w))) as [|n] eqn:Hd;
        simpl in Hnew; [|done].
      injection Hnew as <-. split; [f_equal; lia|done].
  - split; [|done]. intros t task Htask Hrace. by destruct (Hq _ _ Htask).
Qed.

Lemma ownedSetup_engineInv fetch k w :
  wf w → idle w → scopeKey w = Some k → engineInv (ownedSetup fetch k w).
Proof.
  intros Hwf (Hq & Hc & Ho & Hr) Hk. unfold ownedSetup.
  destruct (fetchWatch_live fetch k (upd_current None w)) as (Hlive & _ & _ & Hkey).
  { by apply (wf_same w). }
  { intros t task Htask Hrace. by destruct (Hq t task Htask). }
  split_and!.
  - exact Hlive.
  - done.
  - intros _. cbn [resource upd_owned upd_resource]. unfold scopeKey in *.
    cbn [keyReactive upd_owned upd_resource]. rewrite Hkey. cbn [keyReactive upd_current].
    by rewrite Hk.
Qed.

Lemma ownedDispose_idle w : wf w → engineInv w → idle (ownedDispose w).
Proof.
  intros Hwf (Hlive & _ & _).
  destruct (abort_makes_quiet w Hwf) as (Hq & Hc & _).
  { intros t task Htask Hrace. by destruct (Hlive t task Htask Hrace). }
  unfold ownedDispose. split_and!; done.
Qed.

Lemma engineInv_rest_idle w : engineInv w → ownedScope w = false → idle w.
Proof.
  intros (Hlive & Hoff & _) Ho. destruct (Hoff Ho) as [Hc Hr].
  split_and!; try done.
  intros t task Htask Hrace. destruct (Hlive t task Htask Hrace). congruence.
Qed.

Lemma conditionWatch_engineInv fetch k w :
  wf w → engineInv w → scopeKey w = Some k → engineInv (conditionWatch fetch k w).
Proof.
  intros Hwf Hinv Hk. unfold conditionWatch.
  destruct (confirmed k w) eqn:Hconf, (ownedScope w) eqn:Ho; cbn [Bool.eqb]; try done.
  - apply ownedSetup_engineInv; [done| |done]. by apply engineInv_rest_idle.
  - by apply idle_engineInv, ownedDispose_idle.
Qed.

Lemma keyedDispose_idle k w : wf w → engineInv w → idle (keyedDispose k w).
Proof.
  intros Hwf Hinv. unfold keyedDispose.
  assert (engineView (ownershipDispose k w) = engineView w) as Hview
    by (unfold ownershipDispose; by repeat case_match).
  pose proof (engineInv_view _ _ Hview Hinv) as Hinv1.
  pose proof (ev_wf _ _ (evolves_ownershipDispose k w) Hwf) as Hwf1.
  destruct (ownedScope (ownershipDispose k w)) eqn:Ho.
  - by apply ownedDispose_idle.
  - by apply engineInv_rest_idle.
Qed.

Lemma keyedSetup_engineInv fetch k w :
  wf w → idle w → scopeKey w = Some k → engineInv (keyedSetup fetch k w).
Proof.
  intros Hwf Hidle Hk. unfold keyedSetup, wheneverCallback.
  set (w2 := ownershipWatch k (upd_committed false w)).
  assert (engineView w2 = engineView w) as Hview
    by (subst w2; unfold ownershipWatch; by repeat case_match).
  assert (wf w2) as Hwf2.
  { apply (ev_wf _ _ (evolves_ownershipWatch k (upd_committed false w))).
    by apply (wf_same w). }
  set (w4 := if negb (bool_decide (is_Some (stateValue k w2)))
             then upd_scheduled (λ q, q ++ [k])
                    (upd_missing (negb (bool_decide (is_Some (stateValue k w2)))) w2)
             else upd_missing (negb (bool_decide (is_Some (stateValue k w2)))) w2).
  assert (heap w4 = heap w2 ∧ store w4 = store w2 ∧ engineView w4 = engineView w2)
    as (Hh4 & Hs4 & Hv4) by (subst w4; by case_match).
  unfold engineView in Hview, Hv4.
  injection Hview as Ht Hc Ho Hr Hkey. injection Hv4 as Ht4 Hc4 Ho4 Hr4 Hkey4.
  apply conditionWatch_engineInv.
  - apply (wf_same w2); done.
  - apply idle_engineInv.
    apply (idle_view w); [congruence..|done].
  - unfold scopeKey in *. by rewrite Hkey4, Hkey.
Qed.

Lemma keyWatch_engineInv fetch key w :
  wf w → engineInv w → engineInv (keyWatch fetch key w).
Proof.
  intros Hwf Hinv. unfold keyWatch. case_bool_decide as Hsame; [done|].
  set (w1 := match scopeKey w with Some k => keyedDispose k w | None => w end).
  assert (idle w1 ∧ wf w1) as [Hidle1 Hwf1].
  { subst w1. destruct (scopeKey w) as [k0|] eqn:Hk0.
    - split; [by apply keyedDispose_idle|].
      by apply (ev_wf _ _ (evolves_keyedDispose k0 w)).
    - split; [|done]. apply engineInv_rest_idle; [done|].
      destruct Hinv as (_ & _ & Hon).
      destruct (ownedScope w); [|done].
      destruct (Hon eq_refl) as [_ [? ?]]. congruence. }
  assert (idle (upd_key key w1)) as Hidle2 by (by apply (idle_view w1)).
  assert (wf (upd_key key w1)) as Hwf2 by (by apply (wf_same w1)).
  destruct key as [k|]; [|by apply idle_engineInv].
  destruct (truthy k) eqn:Htruthy; [|by apply idle_engineInv].
  apply keyedSetup_engineInv; [done..|].
  unfold scopeKey; cbn [keyReactive upd_key]. by rewrite Htruthy.
Qed.

Lemma settle_engineInv f t w :
  (∀ task, task_phase (f task) = task_phase task ∧
           (task_race (f task) = Unsettled → task_race task = Unsettled)) →
  engineInv w → engineInv (upd_tasks (alter f t) w).
Proof.
  intros Hf (Hlive & Hoff & Hon). split_and!; [|done..].
  intros t' task'. cbn [tasks currentFetchTask upd_tasks].
  destruct (decide (t = t')) as [<-|Hne].
  - rewrite list_lookup_alter_eq.
    destruct (tasks w !! t) as [task|] eqn:Ht; [|done]. simpl.
    intros [= <-] Hrace. destruct (Hf task) as [Hph Hr].
    rewrite Hph. by apply Hlive, Hr.
  - rewrite list_lookup_alter_ne by done. apply Hlive.
Qed.

Lemma resume_engineInv t w : engineInv w → engineInv (resume t w).
Proof.
  intros Hinv. unfold resume.
  destruct (tasks w !! t) as [task|] eqn:Ht; [|done].
  assert (∀ w', engineView w' = engineView w → task_race task ≠ Unsettled →
            engineInv (upd_tasks (alter (with_phase Returned) t) w'))
    as Hstep.
  { intros w' Hview Hsettled.
    destruct (engineInv_view _ _ Hview Hinv) as (Hlive & Hoff & Hon).
    assert (tasks w' = tasks w) as Htasks by (by injection Hview).
    split_and!; [|done..].
    intros t' task'. cbn [tasks currentFetchTask upd_tasks].
    destruct (decide (t = t')) as [<-|Hne].
    - rewrite list_lookup_alter_eq, Htasks, Ht. simpl. by intros [= <-].
    - rewrite list_lookup_alter_ne by done. apply Hlive. }
  destruct (task_phase task); try done.
  destruct (task_race task) as [|[|v]|e] eqn:Hrace; try done;
    apply Hstep; done.
Qed.

Lemma finalize_engineInv t w : engineInv w → engineInv (finalize t w).
Proof.
  intros Hinv. unfold finalize.
  destruct (tasks w !! t) as [task|] eqn:Ht; [|done].
  destruct (task_phase task) eqn:Hph; try done.
  destruct Hinv as (Hlive & Hoff & Hon).
  assert (task_race task ≠ Unsettled) as Hsettled.
  { intros Hrace. destruct (Hlive _ _ Ht Hrace). congruence. }
  assert (∀ t' task', alter (with_phase Finalized) t (tasks w) !! t' = Some task' →
            task_race task' = Unsettled →
            t' ≠ t ∧ currentFetchTask w = Some t' ∧ task_phase task' = Awaiting)
    as Hlive'.
  { intros t' task'. destruct (decide (t = t')) as [<-|Hne].
    - rewrite list_lookup_alter_eq, Ht. simpl. by intros [= <-].
    - rewrite list_lookup_alter_ne by done. intros Htask' Hrace.
      destruct (Hlive _ _ Htask' Hrace). done. }
  case_bool_decide as Hcur.
  - split_and!.
    + intros t' task' Htask' Hrace. cbn [tasks upd_current upd_tasks] in Htask'.
      destruct (Hlive' _ _ Htask' Hrace) as (Hne & Hc & _). congruence.
    + intros Ho. destruct (Hoff Ho). done.
    + exact Hon.
  - split_and!; [|done..].
    intros t' task' Htask' Hrace. cbn [tasks upd_tasks] in Htask'.
    destruct (Hlive' _ _ Htask' Hrace) as (_ & Hc & Hp). done.
Qed.

Lemma engineInv_step lbl w : wf w → engineInv w → engineInv (step lbl w).
Proof.
  intros Hwf Hinv.
  assert (∀ w', engineView w' = engineView w → engineInv w') as Hview
    by (intros w' Hv; by apply (engineInv_view w)).
  destruct lbl; simpl; unfold inScope.
  - by apply keyWatch_engineInv.
  - case_match; [|done]. apply Hview. unfold ownershipWatch. by case_match.
  - case_match; [|done]. apply Hview. unfold wheneverWatch, wheneverCallback.
    by repeat case_match.
  - case_match eqn:Hk; [|done]. by apply conditionWatch_engineInv.
  - destruct (ownedScope w) eqn:Ho; [|done]. case_match eqn:Hk; [|done].
    destruct Hinv as (Hlive & Hoff & Hon).
    destruct (fetchWatch_live fetch r w Hwf Hlive) as (Hlive' & Ho' & Hr' & Hk').
    split_and!; [done|congruence|].
    intros _. unfold scopeKey in *. rewrite Hr', Hk'. by apply Hon.
  - apply Hview. unfold runMicrotask, reset. by case_match.
  - by apply Hview.
  - apply Hview. unfold markStale. by case_match.
  - by apply Hview.
  - by apply Hview.
  - apply Hview. unfold externalWrite. by case_match.
  - apply settle_engineInv; [|done]. intros task. split; [done|]. simpl.
    by destruct (task_race task).
  - apply settle_engineInv; [|done]. intros task. split; [done|]. simpl.
    by destruct (task_race task).
  - by apply resume_engineInv.
  - by apply finalize_engineInv.
Qed.

Lemma engineInv_run ls : engineInv (run ls initialWorld).
Proof.
  induction ls as [|lbl ls IH] using rev_ind.
  - apply idle_engineInv. split_and!; try done; intros t task; by destruct t.
  - rewrite run_snoc. apply engineInv_step; [apply wf_run|done].
Qed.

(** X6. In every execution at most one fetch task has an unsettled raced
    promise: such a task is the current task of an ownership-confirmed
    scope that is alive and it still awaits, so two such tasks are the
    same task.  The race of every other task is settled: the task was
    cancelled, or its operation has resolved or rejected. *)
Theorem at_most_one_live_task (ls : list Label) :
  let w := run ls initialWorld in
  (∀ t task, tasks w !! t = Some task → task_race task = Unsettled →
     currentFetchTask w = Some t ∧ ownedScope w = true ∧
     task_phase task = Awaiting) ∧
  (∀ t1 t2 task1 task2,
     tasks w !! t1 = Some task1 → tasks w !! t2 = Some task2 →
     task_race task1 = Unsettled → task_race task2 = Unsettled → t1 = t2).
Proof.
  intros w. destruct (engineInv_run ls) as (Hlive & Hoff & _). fold w in Hlive, Hoff.
  assert (∀ t task, tasks w !! t = Some task → task_race task = Unsettled →
            currentFetchTask w = Some t ∧ ownedScope w = true ∧
            task_phase task = Awaiting) as Hone.
  { intros t task Htask Hrace. destruct (Hlive t task Htask Hrace) as [Hc Hp].
    split_and!; try done. destruct (ownedScope w); [done|].
    destruct (Hoff eq_refl). congruence. }
  split; [exact Hone|].
  intros t1 t2 task1 task2 H1 H2 Hr1 Hr2.
  destruct (Hone _ _ H1 Hr1) as [Hc1 _]. destruct (Hone _ _ H2 Hr2) as [Hc2 _].
  congruence.
Qed.

(** X7. In every execution the resource handle is non-null exactly while
    the ownership-confirmed scope is alive, and it then carries the key
    of the keyed scope; while that scope is not alive there is no
    current fetch task either. *)
Theorem resource_handle_tracks_owned_scope (ls : list Label) :
  let w := run ls initialWorld in
  (is_Some (resource w) ↔ ownedScope w = true) ∧
  (ownedScope w = true → resource w = scopeKey w ∧ resource w = keyReactive w) ∧
  (ownedScope w = false → currentFetchTask w = None).
Proof.
  intros w. destruct (engineInv_run ls) as (_ & Hoff & Hon). fold w in Hoff, Hon.
  split_and!.
  - split.
    + intros [r Hr]. destruct (ownedScope w); [done|].
      destruct (Hoff eq_refl). congruence.
    + intros Ho. destruct (Hon Ho) as [-> ?]. done.
  - intros Ho. destruct (Hon Ho) as [Hr [k Hk]]. split; [done|].
    rewrite Hr. unfold scopeKey in *. destruct (keyReactive w) as [k'|]; [|done].
    by destruct (truthy k').
  - intros Ho. by destruct (Hoff Ho).
Qed.

(** *** Who writes [owners] *)

Lemma owners_alter f l (h : list ResourceState) :
  (∀ s, owners (f s) = owners s) →
  owners <$> alter f l h = owners <$> h.
Proof.
  intros Hf. rewrite (list_fmap_alter owners f id).
  - by apply list_alter_id.
  - apply Forall_forall. intros s _. apply Hf.
Qed.

Lemma owners_fetchWatch fetch k w :
  owners <$> heap (fetchWatch fetch k w) = owners <$> heap w.
Proof.
  unfold fetchWatch. case_match; [|done].
  case_match; rewrite <- (heap_abortFetchTaskIfThereIsSome w); [|done].
  unfold executeFetch. cbn [heap upd_current upd_tasks upd_log upd_heap].
  by apply owners_alter.
Qed.

(** X8. The fetch engine and its commands never write [owners]: a run of
    the fetch watcher or of the condition watcher, [markStale()], the
    settling and the commit of a task, its [finally] callback and a
    clearing of the store leave the [owners] field of every state object
    as it is.  Only the ownership watcher, the disposal of a scope,
    [reset()] and writers outside the composable change it. *)
Theorem engine_never_writes_owners (lbl : Label) (w : World) :
  engineLabel lbl = true →
  owners <$> heap (step lbl w) = owners <$> heap w.
Proof.
  destruct lbl; simpl; try discriminate; intros _; unfold inScope.
  - case_match; [|done]. unfold wheneverWatch, wheneverCallback.
    by repeat case_match.
  - case_match; [|done]. unfold conditionWatch, ownedSetup, ownedDispose.
    repeat case_match; cbn [heap upd_owned upd_resource]; try done.
    + by rewrite owners_fetchWatch.
    + by rewrite heap_abortFetchTaskIfThereIsSome.
  - repeat case_match; try done. apply owners_fetchWatch.
  - unfold markStale. case_match; [|done]. by apply owners_alter.
  - done.
  - done.
  - done.
  - done.
  - unfold resume. repeat case_match; try done;
      cbn [heap upd_tasks upd_heap]; by apply owners_alter.
  - unfold finalize. by repeat case_match.
Qed.

(** *** Losing the confirmation *)

(** X9. When the ownership is no longer confirmed (the entry is gone, or
    its [owners] is not 1) while the ownership-confirmed scope is alive,
    the run of the condition watcher stops the engine: the scope is
    dead, the resource handle is null, there is no current task, and no
    state object or store slot has changed, so [data] and [error] are
    kept.  If the current task was in flight it is cancelled: whenever it
    resumes later, it assigns nothing. *)
Theorem losing_confirmation_stops_engine
    (fetch : FetchFn) (k : ResourceKey) (ls post : list Label) :
  let w := run ls initialWorld in
  scopeKey w = Some k → ownedScope w = true → confirmed k w = false →
  let w' := step (LCondition fetch) w in
  ownedScope w' = false ∧ resource w' = None ∧ currentFetchTask w' = None ∧
  heap w' = heap w ∧ store w' = store w ∧
  (∀ t task, currentFetchTask w = Some t → tasks w !! t = Some task →
     task_race task = Unsettled →
     heap (resume t (run post w')) = heap (run post w')).
Proof.
  intros w Hk Ho Hconf w'.
  assert (w' = ownedDispose w) as ->.
  { subst w'. rewrite (step_condition_in_scope fetch k w Hk).
    unfold conditionWatch. by rewrite Hconf, Ho. }
  unfold ownedDispose.
  cbn [ownedScope resource currentFetchTask heap store upd_owned upd_resource].
  rewrite heap_abortFetchTaskIfThereIsSome, store_abortFetchTaskIfThereIsSome.
  split_and!; try done.
  - unfold abortFetchTaskIfThereIsSome. by case_match.
  - intros t task Hcur Htask Hrace.
    destruct (wf_run ls) as [Htasks _]. destruct (Htasks _ _ Htask) as [_ Hhead].
    pose proof (tasks_deliverAbort_cancelled t w task Htask Hhead Hrace) as Hc.
    set (w1 := upd_owned false (upd_resource None (abortFetchTaskIfThereIsSome w))).
    assert (tasks w1 !! t = Some (with_race (Resolved FETCH_TASK_ABORTED) task)) as Hc1.
    { subst w1. unfold abortFetchTaskIfThereIsSome. by rewrite Hcur. }
    destruct (ev_tasks _ _ (evolves_run post w1) _ _ Hc1) as (task' & Hl & _ & _ & Hr).
    apply (resume_heap_aborted t _ task' Hl). by rewrite Hr.
Qed.

(** *** Configurations *)

Lemma reconfigure_keyWatch value w :
  ∃ fetch, reconfigure value w = keyWatch fetch (keyOfConfig value) w.
Proof.
  unfold reconfigure, keyOfConfig. destruct (normalizeFetch value) as [kf|]; eauto.
Qed.

Lemma scopeKey_None_idle ls :
  scopeKey (run ls initialWorld) = None → idle (run ls initialWorld).
Proof.
  intros Hk. pose proof (engineInv_run ls) as Hinv.
  apply engineInv_rest_idle; [done|].
  destruct Hinv as (_ & _ & Hon). destruct (ownedScope _); [|done].
  destruct (Hon eq_refl) as [_ [? ?]]. congruence.
Qed.

(** X10. A configuration decides through its key alone.  A plain
    function and an object without a [key] property get
    [ANONYMOUS_KEY]; a falsy configuration, an object whose [key] is
    present but [undefined], and the keys [''] and [0] disable the
    composable.  In every execution, re-deriving the configuration to the
    key the watcher saw last is ignored, whatever the fetch function is;
    and after the key watcher has run on a disabled configuration there
    is no keyed scope, no ownership-confirmed scope, no handle and no
    current task, every task has been cancelled or has settled, and the
    watchers of the scope do nothing. *)
Theorem disabled_configuration_tears_down (value : FetchConfig) (ls : list Label) :
  let w := run ls initialWorld in
  let w' := reconfigure value w in
  (∀ fn, keyOfConfig (ConfigFunction fn) = Some ANONYMOUS_KEY ∧
         keyOfConfig (ConfigObject KeyMissing fn) = Some ANONYMOUS_KEY ∧
         enabled (ConfigObject KeyUndefined fn) = false ∧
         enabled (ConfigObject (KeyGiven (KString "")) fn) = false ∧
         enabled (ConfigObject (KeyGiven (KNumber 0)) fn) = false) ∧
  enabled ConfigFalsy = false ∧
  (keyOfConfig value = keyReactive w → w' = w) ∧
  (enabled value = false →
     scopeKey w' = None ∧ idle w' ∧ store w' = store w ∧
     ∀ fetch lbl, lbl ∈ [LOwnership; LWhenever; LCondition fetch; LFetch fetch] →
       step lbl w' = w').
Proof.
  intros w w'. split_and!; try done.
  - intros Hsame. subst w'. destruct (reconfigure_keyWatch value w) as [fetch ->].
    unfold keyWatch. by rewrite bool_decide_true.
  - intros Hoff. subst w'. destruct (reconfigure_keyWatch value w) as [fetch ->].
    unfold enabled in Hoff.
    assert (scopeKey (keyWatch fetch (keyOfConfig value) w) = None ∧
            idle (keyWatch fetch (keyOfConfig value) w) ∧
            store (keyWatch fetch (keyOfConfig value) w) = store w)
      as (Hk & Hidle & Hstore).
    { unfold keyWatch. case_bool_decide as Hsame.
      - assert (scopeKey w = None) as Hk.
        { unfold scopeKey. rewrite <- Hsame.
          destruct (keyOfConfig value) as [k0|]; [by rewrite Hoff|done]. }
        split_and!; [done| |done]. by apply scopeKey_None_idle.
      - set (w1 := match scopeKey w with Some k => keyedDispose k w | None => w end).
        assert (idle w1 ∧ store w1 = store w) as [Hidle1 Hstore1].
        { subst w1. destruct (scopeKey w) as [k0|] eqn:Hk0.
          - split; [apply keyedDispose_idle; [apply wf_run|apply engineInv_run]|].
            by destruct (keyedDispose_ownership k0 w) as (_ & ? & _).
          - split; [by apply scopeKey_None_idle|done]. }
        assert (idle (upd_key (keyOfConfig value) w1)) as Hidle2
          by (by apply (idle_view w1)).
        destruct (keyOfConfig value) as [k0|]; [rewrite Hoff|];
          (split_and!; [|done|done]); unfold scopeKey; cbn [keyReactive upd_key];
          [by rewrite Hoff|done]. }
    split_and!; [done..|].
    intros fetch' lbl Hin.
    destruct Hidle as (_ & _ & Ho & _).
    repeat (apply elem_of_cons in Hin as [->|Hin]); simpl; unfold inScope;
      rewrite ?Hk, ?Ho; try done.
    by apply elem_of_nil in Hin.
Qed.

(** *** Binding to an entry *)

(** What the setup of a keyed scope does when the store holds an entry
    for the key. *)
Lemma keyedSetup_bound fetch k w l s :
  ownedScope w = false → stateValue k w = Some l → heap w !! l = Some s →
  let s1 := with_owners (owners s + 1) s in
  let w' := keyedSetup fetch k w in
  committed w' = true ∧ store w' = store w ∧ keyReactive w' = keyReactive w ∧
  (owners s1 ≠ 1%Z →
     heap w' !! l = Some s1 ∧ ownedScope w' = false ∧ tasks w' = tasks w ∧
     currentFetchTask w' = currentFetchTask w) ∧
  (owners s1 = 1%Z →
     ownedScope w' = true ∧ resource w' = Some k ∧
     ((pending s = true ∨ fresh s = true) →
        heap w' !! l = Some s1 ∧ tasks w' = tasks w ∧ currentFetchTask w' = None) ∧
     (pending s = false → fresh s = false →
        heap w' !! l = Some (with_pending true s1) ∧
        currentFetchTask w' = Some (length (tasks w)))).
Proof.
  intros Ho Hl Hs s1 w'. subst w'. unfold keyedSetup, wheneverCallback.
  destruct (ownershipWatch_bound k (upd_committed false w) l s Hl Hs)
    as (Hs2 & Hc2 & Ht2 & Hcur2).
  apply control_fields in Hc2 as (Hst2 & Hkey2 & Hcm2 & Hown2).
  set (w2 := ownershipWatch k (upd_committed false w)) in *.
  cbn [store keyReactive ownedScope tasks currentFetchTask upd_committed]
    in Hst2, Hkey2, Hown2, Ht2, Hcur2.
  assert (stateValue k w2 = Some l) as Hl2.
  { rewrite <- Hl. by apply stateValue_of_store. }
  clearbody w2.
  rewrite Hl2. rewrite bool_decide_true by eauto. cbn [negb].
  assert (stateValue k (upd_missing false w2) = Some l) as Hl4 by done.
  assert (heap (upd_missing false w2) !! l = Some s1) as Hs4 by done.
  assert (confirmed k (upd_missing false w2) = (owners s1 =? 1)%Z) as Hconf.
  { rewrite (confirmed_of k (upd_missing false w2) l s1 Hl4 Hs4). cbn [committed upd_missing].
    rewrite Hcm2. by rewrite andb_true_r. }
  unfold conditionWatch. rewrite Hconf.
  cbn [ownedScope upd_missing]. rewrite Hown2, Ho.
  destruct (owners s1 =? 1)%Z eqn:Hone; cbn [Bool.eqb].
  - apply Z.eqb_eq in Hone. unfold ownedSetup.
    destruct (control_same _ _ (control_fetchWatch fetch k (upd_current None (upd_missing false w2))))
      as (Hst5 & Hkey5 & Hcm5 & _).
    cbn [committed store keyReactive ownedScope resource heap tasks currentFetchTask
         upd_owned upd_resource].
    rewrite Hst5, Hkey5, Hcm5.
    cbn [committed store keyReactive upd_current upd_missing].
    split_and!; try done.
    intros _. split_and!; try done.
    + intros Hidle.
      rewrite fetchWatch_not_triggered.
      * cbn [heap tasks currentFetchTask upd_current upd_missing]. done.
      * unfold triggerExecuteFetch, stateFields.
        change (stateValue k (upd_current None (upd_missing false w2))) with (stateValue k (upd_missing false w2)).
        rewrite Hl4. cbn [heap upd_current]. rewrite Hs4. subst s1. simpl.
        destruct Hidle as [-> | ->]; [done|]. by rewrite andb_false_r.
    + intros Hp Hf.
      destruct (fetchWatch_starts fetch k (upd_current None (upd_missing false w2)) l s1 Hl4 Hs4 Hp Hf)
        as (Hheap & _ & Hcur & _).
      cbn [tasks upd_current upd_missing] in Hcur. by rewrite Ht2 in Hcur.
  - apply Z.eqb_neq in Hone.
    cbn [committed store keyReactive ownedScope heap tasks currentFetchTask upd_missing].
    split_and!; try done.
    intros _. split_and!; [done|congruence|done..].
Qed.

Lemma keyedDispose_bound k w l s :
  committed w = true → stateValue k w = Some l → heap w !! l = Some s →
  heap (keyedDispose k w) !! l = Some (with_owners (owners s - 1) s) ∧
  store (keyedDispose k w) = store w ∧
  length (tasks (keyedDispose k w)) = length (tasks w).
Proof.
  intros Hc Hl Hs. destruct (keyedDispose_ownership k w) as (-> & -> & _).
  split_and!; [|done|].
  - unfold ownershipDispose. rewrite Hc, Hl. cbn [heap upd_heap].
    by rewrite list_lookup_alter_eq, Hs.
  - unfold keyedDispose, ownedDispose.
    assert (tasks (ownershipDispose k w) = tasks w) as Ht
      by (unfold ownershipDispose; by repeat case_match).
    case_match; cbn [tasks upd_owned upd_resource];
      rewrite ?tasks_abortFetchTaskIfThereIsSome_length; by rewrite Ht.
Qed.

(** X11. Disabling the composable and enabling it again with the same
    key reuses the entry.  For a committed consumer whose entry exists,
    after the key has gone to null and come back, the consumer is
    committed again and counted once in [owners], as before.  If the
    entry is fresh, or is still marked pending, or has other owners, all
    its fields are what they were and no fetch is started; only if it is
    stale, not pending and owned by this consumer alone a new fetch is
    started on it. *)
Theorem reenabling_reuses_entry
    (fetch : FetchFn) (k : ResourceKey) (ls : list Label) (l : nat)
    (s : ResourceState) :
  let w := run ls initialWorld in
  scopeKey w = Some k → committed w = true →
  stateValue k w = Some l → heap w !! l = Some s →
  let w' := run [LKey fetch None; LKey fetch (Some k)] w in
  committed w' = true ∧ stateValue k w' = Some l ∧ scopeKey w' = Some k ∧
  (owners s = 1%Z → ownedScope w' = true ∧ resource w' = Some k) ∧
  ((owners s ≠ 1%Z ∨ pending s = true ∨ fresh s = true) →
     heap w' !! l = Some s ∧ currentFetchTask w' = None ∧
     length (tasks w') = length (tasks w)) ∧
  (owners s = 1%Z → pending s = false → fresh s = false →
     heap w' !! l = Some (with_pending true s) ∧
     currentFetchTask w' = Some (length (tasks w))).
Proof.
  intros w Hk Hc Hl Hs w'.
  assert (∃ k0, keyReactive w = Some k0 ∧ k0 = k ∧ truthy k = true)
    as (k0 & Hkey & -> & Htruthy).
  { unfold scopeKey in Hk. destruct (keyReactive w) as [k0|]; [|done].
    exists k0. destruct (truthy k0) eqn:Ht; [|done]. injection Hk as ->. done. }
  destruct (keyedDispose_bound k w l s Hc Hl Hs) as (Hs1 & Hst1 & Ht1).
  pose proof (keyedDispose_idle k w (wf_run ls) (engineInv_run ls))
    as (_ & Hcur1 & Ho1 & _).
  set (w1 := keyedDispose k w) in *.
  assert (w' = keyedSetup fetch k (upd_key (Some k) (upd_key None w1))) as ->.
  { subst w'. unfold run. cbn [foldl step].
    unfold keyWatch at 2. rewrite bool_decide_false by congruence.
    rewrite Hk. fold w1. cbn zeta.
    unfold keyWatch. rewrite bool_decide_false by done.
    unfold scopeKey at 1. cbn [keyReactive upd_key]. cbn zeta. by rewrite Htruthy. }
  set (w2 := upd_key (Some k) (upd_key None w1)).
  assert (stateValue k w2 = Some l) as Hl2.
  { rewrite <- Hl. by apply stateValue_of_store. }
  destruct (keyedSetup_bound fetch k w2 l (with_owners (owners s - 1) s) Ho1 Hl2 Hs1)
    as (Hc' & Hst' & Hkey' & Hmany & Hone).
  assert (with_owners (owners (with_owners (owners s - 1) s) + 1)
            (with_owners (owners s - 1) s) = s) as Hback.
  { destruct s as [d e p f o]. unfold with_owners; simpl. f_equal. lia. }
  rewrite Hback in Hmany, Hone.
  split_and!.
  - done.
  - rewrite <- Hl2. by apply stateValue_of_store.
  - unfold scopeKey. rewrite Hkey'. unfold w2. cbn [keyReactive upd_key].
    by rewrite Htruthy.
  - intros H1. by destruct (Hone H1) as (? & ? & _).
  - intros Hcase. destruct (decide (owners s = 1%Z)) as [H1|Hn1].
    + destruct (Hone H1) as (_ & _ & Hidle & _).
      destruct Hcase as [?|Hcase]; [done|].
      destruct (Hidle Hcase) as (? & Ht' & ?).
      split_and!; [done..|]. by rewrite Ht'.
    + destruct (Hmany Hn1) as (? & _ & Ht' & Hcur').
      split_and!; [done| |by rewrite Ht'].
      by rewrite Hcur'.
  - intros H1 Hp Hf. destruct (Hone H1) as (_ & _ & _ & Hstart).
    destruct (Hstart Hp Hf) as [? Hcur']. split; [done|].
    rewrite Hcur'. unfold w2. cbn [tasks upd_key]. by rewrite Ht1.
Qed.

(** *** Mounting *)

(** X14. Binding a consumer that has no keyed scope to a key the store
    has no entry for, with no bootstrap microtask pending.  The
    run of the key watcher sets up the keyed scope, commits nothing,
    starts nothing and schedules one [reset] in a microtask.  Once the
    microtask has run and the ownership and condition watchers have been
    flushed, the store holds a new entry for the key with [owners = 1],
    the consumer is committed, the resource handle carries the key, and
    the first fetch is in flight: [pending = true], [fresh = false], no
    data and no error yet. *)
Theorem mounting_bootstraps_entry (fetch : FetchFn) (k : ResourceKey) (ls : list Label) :
  let w := run ls initialWorld in
  scopeKey w = None → truthy k = true →
  stateValue k w = None → scheduledResets w = [] →
  let w1 := step (LKey fetch (Some k)) w in
  let w' := run [LMicrotask; LOwnership; LCondition fetch] w1 in
  (scheduledResets w1 = [k] ∧ heap w1 = heap w ∧ store w1 = store w ∧
   tasks w1 = tasks w ∧ committed w1 = false ∧ ownedScope w1 = false) ∧
  stateValue k w' = Some (length (heap w)) ∧ committed w' = true ∧
  scopeKey w' = Some k ∧ resource w' = Some k ∧
  refetching (length (heap w)) (length (tasks w)) w'.
Proof.
  intros w Hk Htruthy Hnone Hsched w1 w'.
  destruct (scopeKey_None_idle ls Hk) as (_ & Hcur & Ho & _). fold w in Hcur, Ho.
  assert (keyReactive w ≠ Some k) as Hkey.
  { intros Heq. unfold scopeKey in Hk. by rewrite Heq, Htruthy in Hk. }
  assert (w1 = upd_scheduled (λ q, q ++ [k])
                 (upd_missing true
                    (upd_committed false
                       (upd_committed false (upd_key (Some k) w))))) as Hw1.
  { subst w1. cbn [step]. unfold keyWatch.
    rewrite bool_decide_false by congruence. rewrite Hk. cbn zeta.
    rewrite Htruthy. unfold keyedSetup, ownershipWatch.
    change (stateValue k (upd_committed false (upd_key (Some k) w)))
      with (stateValue k w).
    rewrite Hnone.
    change (stateValue k (upd_committed false
              (upd_committed false (upd_key (Some k) w))))
      with (stateValue k w).
    rewrite Hnone. rewrite bool_decide_false by (by intros [? ?]).
    cbn [negb]. unfold wheneverCallback, conditionWatch, confirmed, stateFields.
    change (stateValue k (upd_scheduled _ _)) with (stateValue k w).
    rewrite Hnone. cbn [ownedScope upd_scheduled upd_missing upd_committed upd_key].
    by rewrite Ho. }
  split.
  { rewrite Hw1.
    cbn [scheduledResets heap store tasks committed ownedScope
         upd_scheduled upd_missing upd_committed upd_key].
    by rewrite Hsched, Ho. }
  subst w'. unfold run. cbn [foldl].
  set (wB := step LMicrotask w1).
  assert (wB = reset k (upd_scheduled (λ _, []) w1)) as HwB.
  { subst wB. cbn [step]. unfold runMicrotask. rewrite Hw1 at 1.
    cbn [scheduledResets upd_scheduled upd_missing upd_committed upd_key].
    by rewrite Hsched. }
  destruct (reset_entry k (upd_scheduled (λ _, []) w1)) as (Hl & Hs & _ & Hc & Ht & Hcu).
  rewrite <- HwB in Hl, Hs, Hc, Ht, Hcu.
  apply control_fields in Hc as (_ & HkeyB & HcmB & HoB).
  assert (heap w1 = heap w ∧ tasks w1 = tasks w ∧ keyReactive w1 = Some k ∧
          ownedScope w1 = false ∧ currentFetchTask w1 = None)
    as (Hh1 & Ht1 & Hk1 & Ho1 & Hc1).
  { rewrite Hw1.
    cbn [heap tasks keyReactive ownedScope currentFetchTask
         upd_scheduled upd_missing upd_committed upd_key]. done. }
  cbn [heap tasks keyReactive ownedScope currentFetchTask upd_scheduled]
    in Hl, Hs, HkeyB, HoB, Ht, Hcu.
  rewrite Hh1 in Hl, Hs. rewrite Ht1 in Ht. rewrite Hk1 in HkeyB.
  rewrite Ho1 in HoB. rewrite Hc1 in Hcu.
  clearbody wB.
  assert (scopeKey wB = Some k) as HkB.
  { unfold scopeKey. by rewrite HkeyB, Htruthy. }
  rewrite (step_ownership_in_scope k wB HkB).
  destruct (ownershipWatch_bound k wB _ _ Hl Hs) as (Hs2 & Hc2 & Ht2 & Hcu2).
  apply control_fields in Hc2 as (Hst2 & Hkey2 & Hcm2 & Hown2).
  set (w2 := ownershipWatch k wB) in *. clearbody w2.
  assert (stateValue k w2 = Some (length (heap w))) as Hl2.
  { rewrite <- Hl. by apply stateValue_of_store. }
  assert (scopeKey w2 = Some k) as Hk2.
  { rewrite <- HkB. by apply scopeKey_of_key. }
  rewrite (step_condition_in_scope fetch k w2 Hk2).
  assert (conditionWatch fetch k w2 = ownedSetup fetch k w2) as ->.
  { unfold conditionWatch.
    by rewrite (confirmed_of k w2 _ _ Hl2 Hs2), Hcm2, Hown2, HoB. }
  destruct (fetchWatch_starts fetch k (upd_current None w2) _ _ Hl2 Hs2 eq_refl eq_refl)
    as (Hs4 & _ & Hcur4 & _ & Htask4).
  destruct (control_same _ _ (control_fetchWatch fetch k (upd_current None w2)))
    as (Hst4 & Hkey4 & Hcm4 & _).
  cbn [tasks store keyReactive committed upd_current] in Hcur4, Htask4, Hst4, Hkey4, Hcm4.
  rewrite Ht2, Ht in Hcur4, Htask4.
  unfold ownedSetup, refetching, stateValue, scopeKey.
  cbn [heap store tasks keyReactive committed ownedScope resource currentFetchTask
       upd_owned upd_resource].
  rewrite Hst4, Hkey4, Hcm4, Hkey2, HkeyB, Htruthy.
  split_and!; done.
Qed.

(** *** The end of a fetch *)

(** X15. When the current task has committed its result (success or
    failure) and its [finally] callback has run, the fetch cycle is over:
    there is no current task, the entry is fresh and not pending, and
    the fetch watcher starts nothing until the entry is marked stale.
    The [finally] callback of a task that is no longer the current one
    leaves the current task in place. *)
Theorem commit_ends_fetch_cycle
    (fetch : FetchFn) (k : ResourceKey) (w : World) (t : nat) (task : FetchTask)
    (s : ResourceState) :
  tasks w !! t = Some task →
  task_phase task = Awaiting →
  (∃ v, task_race task = Resolved (Fetched v)) ∨ (∃ e, task_race task = Rejected e) →
  stateValue k w = Some (task_state task) →
  heap w !! task_state task = Some s →
  let w' := finalize t (resume t w) in
  (currentFetchTask w = Some t → currentFetchTask w' = None) ∧
  (∀ t', t' ≠ t → currentFetchTask w = Some t' → currentFetchTask w' = Some t') ∧
  (∃ s', stateFields k w' = Some s' ∧ fresh s' = true ∧ pending s' = false ∧
         owners s' = owners s) ∧
  fetchWatch fetch k w' = w'.
Proof.
  intros Htask Hphase Hrace Hl Hs w'.
  assert (∃ f, resume t w = upd_tasks (alter (with_phase Returned) t)
                              (upd_heap (alter f (task_state task)) w) ∧
               fresh (f s) = true ∧ pending (f s) = false ∧
               owners (f s) = owners s) as (f & Hres & Hf & Hp & Hown).
  { unfold resume. rewrite Htask, Hphase.
    destruct Hrace as [[v ->]|[e ->]]; eexists; split; try reflexivity; done. }
  assert (tasks (resume t w) !! t = Some (with_phase Returned task)) as Htask1.
  { rewrite Hres. cbn [tasks upd_tasks upd_heap].
    by rewrite list_lookup_alter_eq, Htask. }
  assert (w' = (if bool_decide (currentFetchTask w = Some t)
                then upd_current None
                       (upd_tasks (alter (with_phase Finalized) t) (resume t w))
                else upd_tasks (alter (with_phase Finalized) t) (resume t w))) as Hw'.
  { subst w'. unfold finalize. rewrite Htask1. cbn [task_phase with_phase].
    by rewrite Hres. }
  assert (stateValue k w' = Some (task_state task) ∧
          heap w' !! task_state task = Some (f s)) as [Hl' Hs'].
  { rewrite Hw', Hres. unfold stateValue in *.
    case_bool_decide; cbn [store heap upd_current upd_tasks upd_heap];
      by rewrite list_lookup_alter_eq, Hs. }
  split_and!.
  - intros Hcur. rewrite Hw'. by rewrite bool_decide_true.
  - intros t' Hne Hcur. rewrite Hw'. rewrite bool_decide_false by congruence.
    by rewrite Hres.
  - exists (f s). unfold stateFields. by rewrite Hl', Hs'.
  - apply fetchWatch_not_triggered. unfold triggerExecuteFetch, stateFields.
    rewrite Hl', Hs', Hf. by rewrite andb_false_r.
Qed.

(** *** Keys and state objects *)

Lemma store_ownedSetup fetch k w : store (ownedSetup fetch k w) = store w.
Proof.
  unfold ownedSetup. cbn [store upd_owned upd_resource].
  by destruct (control_same _ _ (control_fetchWatch fetch k (upd_current None w)))
    as (-> & _).
Qed.

Lemma store_conditionWatch fetch k w : store (conditionWatch fetch k w) = store w.
Proof.
  unfold conditionWatch. repeat case_match; try done.
  - apply store_ownedSetup.
  - unfold ownedDispose. cbn [store upd_owned upd_resource].
    apply store_abortFetchTaskIfThereIsSome.
Qed.

Lemma store_keyWatch fetch key w : store (keyWatch fetch key w) = store w.
Proof.
  unfold keyWatch. case_match; [done|].
  set (w1 := match scopeKey w with Some k => keyedDispose k w | None => w end).
  assert (store w1 = store w) as H1.
  { subst w1. case_match; [|done].
    by destruct (keyedDispose_ownership r w) as (_ & ? & _). }
  assert (∀ k, store (keyedSetup fetch k (upd_key key w1)) = store w) as Hsetup.
  { intros k. unfold keyedSetup, wheneverCallback.
    rewrite store_conditionWatch. unfold ownershipWatch.
    repeat case_match; done. }
  repeat case_match; done.
Qed.

(** How one event changes the store: not at all, or one slot gets the
    object allocated by the event, or one slot or all slots are cleared. *)
Lemma step_store lbl w :
  store (step lbl w) = store w ∨
  (∃ k, store (step lbl w) = store_set k (Some (length (heap w))) (store w)) ∨
  (∃ k, store (step lbl w) = store_set k None (store w)) ∨
  store (step lbl w) = AmnesiaStore.clear (store w).
Proof.
  destruct lbl; simpl; unfold inScope.
  - left. apply store_keyWatch.
  - left. unfold ownershipWatch. by repeat case_match.
  - left. unfold wheneverWatch, wheneverCallback. by repeat case_match.
  - left. case_match; [|done]. apply store_conditionWatch.
  - left. repeat case_match; try done.
    by destruct (control_same _ _ (control_fetchWatch fetch r w)) as (-> & _).
  - unfold runMicrotask. case_match; [by left|]. right. left. eauto.
  - right. left. eauto.
  - left. unfold markStale. by case_match.
  - right. right. left. eauto.
  - by right; right; right.
  - left. unfold externalWrite. by case_match.
  - by left.
  - by left.
  - left. unfold resume. by repeat case_match.
  - left. unfold finalize. by repeat case_match.
Qed.

(** X16. In every execution the entries of different keys are different
    state objects: the store never holds one object under two keys, and
    every object it holds exists.  So what a task writes into the entry
    of its key is never seen through another key. *)
Theorem keys_never_share_an_entry (ls : list Label) :
  let w := run ls initialWorld in
  (∀ k1 k2 l, stateValue k1 w = Some l → stateValue k2 w = Some l → k1 = k2) ∧
  (∀ k l, stateValue k w = Some l → is_Some (heap w !! l)).
Proof.
  intros w. split.
  2: { intros k l Hl. apply lookup_lt_is_Some.
       exact (proj2 (wf_run ls) k l Hl). }
  subst w. induction ls as [|lbl ls IH] using rev_ind; [done|].
  rewrite run_snoc. set (w := run ls initialWorld) in *.
  pose proof (proj2 (wf_run ls)) as Hstore. fold w in Hstore.
  intros k1 k2 l. unfold stateValue in *.
  destruct (step_store lbl w) as [->|[[k ->]|[[k ->]| ->]]].
  - apply IH.
  - cbn [store_get store_set amnesia_ResourceStore] in *.
    destruct (decide (k = k1)) as [Heq1|Hn1], (decide (k = k2)) as [Heq2|Hn2];
      [congruence|subst k1|subst k2|];
      rewrite ?amnesia_get_set_eq, ?amnesia_get_set_ne by done.
    + intros [= <-] Hl2. apply Hstore in Hl2. lia.
    + intros Hl1 [= <-]. apply Hstore in Hl1. lia.
    + apply IH.
  - cbn [store_get store_set amnesia_ResourceStore] in *.
    destruct (decide (k = k1)) as [Heq1|Hn1], (decide (k = k2)) as [Heq2|Hn2];
      [congruence|subst k1|subst k2|];
      rewrite ?amnesia_get_set_eq, ?amnesia_get_set_ne by done; try done.
    apply IH.
  - cbn [store_get amnesia_ResourceStore]. unfold AmnesiaStore.get; simpl.
    by rewrite lookup_empty.
Qed.

End Swr.

(** ** Scenarios of the component tests, on string data and errors *)

Module Scenario.

Abbreviation W := (@World string string).

(** [fetch: create] of [useControlledPromise]: a fetch function that
    registers no abort hook and does not throw. *)
Definition controlled : @FetchFn string :=
  {| fn_registers := []; fn_throws := None |}.

Definition static : ResourceKey := KString "static".

(** Mounting a component that calls [useSwr]: the key watcher runs, the
    bootstrap resets the missing entry in a microtask, and the watchers
    of the scope are flushed. *)
Definition mount : list (@Label string string) :=
  [LKey controlled (Some static); LMicrotask; LOwnership; LWhenever;
   LCondition controlled; LFetch controlled].

Definition mounted : W := run mount initialWorld.

(** The first fetch has resolved with ["foo"] and its task is done. *)
Definition loaded : W :=
  run (mount ++ [LResolve 0 "foo"; LResume 0; LFinally 0]) initialWorld.

(** After [markStale()] on the loaded resource, before the flush. *)
Definition stale : W :=
  run (mount ++ [LResolve 0 "foo"; LResume 0; LFinally 0; LMarkStale static])
    initialWorld.

(** The refresh started by [markStale()] is in flight. *)
Definition refreshing : W :=
  run (mount ++ [LResolve 0 "foo"; LResume 0; LFinally 0; LMarkStale static;
                 LFetch controlled])
    initialWorld.

(** The task of a fetch in flight for the entry at location 0. *)
Definition inFlight : @FetchTask string string :=
  {| task_state := 0; task_hooks := [EngineHook]; task_race := Unsettled;
     task_phase := Awaiting |}.

(** The entry while the first fetch is in flight. *)
Definition fetching : @ResourceState string string :=
  {| data := None; error := None; pending := true; fresh := false; owners := 1 |}.

(** The key goes to null and comes back while the first fetch is in
    flight. *)
Definition rekeyed : W :=
  run [LKey controlled None; LKey controlled (Some static)] mounted.

(** A second owner of the entry comes and goes while the first fetch is
    in flight: its ownership watcher and its disposal change [owners],
    and the condition watcher of this consumer runs after each. *)
Definition visited : W :=
  run [LWrite static (with_owners 2 fetching); LCondition controlled;
       LWrite static fetching; LCondition controlled] mounted.

(** What may follow: the fetch watcher, the late settling of the first
    task, [markStale()], the condition and fetch watchers again. *)
Definition later : list (@Label string string) :=
  [LFetch controlled; LResolve 0 "late"; LResume 0; LFinally 0;
   LMarkStale static; LCondition controlled; LFetch controlled].

(** The first task is cancelled and the entry is as it was, stale and
    marked pending; the engine is active, and no fetch is under way or
    gets under way. *)
Definition stuck (w : W) : Prop :=
  stateFields static w = Some fetching ∧
  ownedScope w = true ∧ resource w = Some static ∧
  task_race <$> tasks w !! 0 = Some (Resolved FETCH_TASK_ABORTED) ∧
  triggerExecuteFetch static w = false ∧
  currentFetchTask w = None ∧ length (tasks w) = 1 ∧
  stateFields static (run later w) = Some fetching ∧
  currentFetchTask (run later w) = None ∧ length (tasks (run later w)) = 1.

End Scenario.

(** 'when res is just initialized, it is pending immediately' *)
Example mounted_is_pending :
  stateFields Scenario.static Scenario.mounted =
    Some {| data := None; error := None; pending := true; fresh := false;
            owners := 1 |}.
Proof. vm_compute. reflexivity. Qed.

(** 'when res is fetched, its data appears at state' *)
Example loaded_has_data :
  stateFields Scenario.static Scenario.loaded =
    Some {| data := Some "foo"; error := None; pending := false; fresh := true;
            owners := 1 |}.
Proof. vm_compute. reflexivity. Qed.

(** 'when refresh is called, res is stale, but pending again' *)
Example refreshing_keeps_data :
  stateFields Scenario.static Scenario.refreshing =
    Some {| data := Some "foo"; error := None; pending := true; fresh := false;
            owners := 1 |}.
Proof. vm_compute. reflexivity. Qed.

(** 'when res is loaded, but refresh is failed, error appears and data is stale' *)
Example failed_refresh_keeps_data :
  stateFields Scenario.static
    (run [LReject 1 "foobar"; LResume 1] Scenario.refreshing) =
    Some {| data := Some "foo"; error := Some "foobar"; pending := false;
            fresh := true; owners := 1 |}.
Proof. vm_compute. reflexivity. Qed.

(** 'when fetch is pending, store state resets and fetch resolves, then
    store isn't mutated, even pending state' *)
Example reset_store_then_resolve_first :
  stateFields Scenario.static
    (run [LClearAll; LOwnership; LWhenever; LCondition Scenario.controlled;
          LMicrotask; LOwnership; LWhenever; LCondition Scenario.controlled;
          LResolve 0 "one"; LResume 0]
       Scenario.mounted) =
    Some {| data := None; error := None; pending := true; fresh := false;
            owners := 1 |}.
Proof. vm_compute. reflexivity. Qed.

(** A task that was cancelled by the disposal of its scope leaves
    [pending] set on its entry, so that the entry does not trigger a fetch
    when the consumer binds to it again. *)
Example cancelled_entry_stays_pending :
  let w := run [LKey Scenario.controlled None;
                LKey Scenario.controlled (Some Scenario.static)]
             Scenario.mounted in
  stateFields Scenario.static w =
    Some {| data := None; error := None; pending := true; fresh := false;
            owners := 1 |} ∧
  ownedScope w = true ∧ currentFetchTask w = None ∧
  triggerExecuteFetch Scenario.static w = false.
Proof. vm_compute. done. Qed.

(** C8. The cancellation of a fetch in flight assigns no field of the
    entry, but it also leaves [pending = true] behind, because the
    cancelled task returns before the assignment that clears it.  For a
    consumer whose first fetch is in flight, once the key has gone to null
    and come back, or a second owner has come and gone, the entry is
    still stale ([fresh = false]) and the engine is active again, yet the
    fetch trigger is false, there is no current task, and neither the
    fetch watcher nor [markStale()] nor the late settling of the cancelled
    task starts a fetch or clears the flag. *)
Theorem cancelled_fetch_is_never_restarted :
  stateFields Scenario.static Scenario.mounted = Some Scenario.fetching ∧
  currentFetchTask Scenario.mounted = Some 0 ∧
  Scenario.stuck Scenario.rekeyed ∧
  Scenario.stuck Scenario.visited.
Proof.
  split_and!; try (vm_compute; reflexivity);
    unfold Scenario.stuck; vm_compute; repeat split; reflexivity.
Qed.

(** A scope disposed between [reset()] and the next run of its ownership
    watcher decrements the new entry, which no consumer was counted in. *)
Example dispose_after_reset_goes_negative :
  stateFields Scenario.static
    (run [LReset Scenario.static; LKey Scenario.controlled None] Scenario.mounted) =
    Some {| data := None; error := None; pending := false; fresh := false;
            owners := -1 |}.
Proof. vm_compute. reflexivity. Qed.

(** ** Concrete executions *)

Lemma amnesia_get_left_inverse_of_set_witness :
  Forall (λ op : ResourceKey * option nat, op.1 ≠ KString "b")
    [(KString "a", Some 0); (KNumber 7, None)] ∧
  AmnesiaStore.get (KString "b")
    (AmnesiaStore.sets [(KString "a", Some 0); (KNumber 7, None)]
       AmnesiaStore.createAmnesiaStore) = None.
Proof.
  assert (Forall (λ op : ResourceKey * option nat, op.1 ≠ KString "b")
            [(KString "a", Some 0); (KNumber 7, None)]) as Hops.
  { repeat constructor; simpl; discriminate. }
  split; [exact Hops|].
  exact (proj2 (proj2 (proj2 (amnesia_get_left_inverse_of_set (KString "b")))) _ Hops).
Defined.

Lemma late_resolution_spares_reset_entry_witness :
  let post := [LOwnership; LWhenever; LCondition Scenario.controlled; LMicrotask;
               LOwnership; LWhenever; LCondition Scenario.controlled;
               LResolve 0 "one"] in
  let w0 := run Scenario.mount initialWorld in
  let w := run ([LMarkStale Scenario.static] ++ LClearAll :: post) w0 in
  tasks w0 !! 0 = Some Scenario.inFlight ∧
  stateValue Scenario.static w0 = Some 0 ∧
  stateValue Scenario.static w = Some 1 ∧
  1 ≠ 0 ∧ heap (resume 0 w) !! 1 = heap w !! 1.
Proof.
  intros post w0 w.
  assert (tasks w0 !! 0 = Some Scenario.inFlight) as Htask
    by (vm_compute; reflexivity).
  assert (stateValue Scenario.static w0 = Some 0) as Hl0
    by (vm_compute; reflexivity).
  assert (stateValue Scenario.static w = Some 1) as Hl
    by (vm_compute; reflexivity).
  pose proof (late_resolution_spares_reset_entry Scenario.static Scenario.mount
                [LMarkStale Scenario.static] post LClearAll 0 Scenario.inFlight
                Htask eq_refl Hl0 (or_intror (or_intror eq_refl)) 1 Hl)
    as [Hother Hsame].
  split_and!; [exact Htask|exact Hl0|exact Hl|exact Hother|exact Hsame].
Defined.

Lemma aborted_task_mutates_nothing_witness :
  let w := run Scenario.mount initialWorld in
  let w1 := deliverAbort 0 w in
  let w2 := run [LMarkStale Scenario.static] w1 in
  tasks w !! 0 = Some Scenario.inFlight ∧
  task_race Scenario.inFlight = Unsettled ∧
  heap w1 = heap w ∧
  heap (resume 0 w2) = heap w2 ∧
  heap (resume 0 (settleResolve 0 "late" w2)) = heap w2 ∧
  heap (resume 0 (settleReject 0 "late" w2)) = heap w2.
Proof.
  intros w w1 w2.
  assert (tasks w !! 0 = Some Scenario.inFlight) as Htask
    by (vm_compute; reflexivity).
  pose proof (aborted_task_mutates_nothing Scenario.mount [LMarkStale Scenario.static]
                0 Scenario.inFlight "late" "late" Htask eq_refl)
    as (Hdeliver & Hresume & Hresolve & Hreject).
  split_and!;
    [exact Htask|reflexivity|exact Hdeliver|exact Hresume|exact Hresolve|exact Hreject].
Defined.

Lemma confirmed_iff_witness :
  confirmed Scenario.static Scenario.mounted = true ∧
  ∃ l s, stateValue Scenario.static Scenario.mounted = Some l ∧
         heap Scenario.mounted !! l = Some s ∧
         owners s = 1%Z ∧ committed Scenario.mounted = true.
Proof.
  assert (confirmed Scenario.static Scenario.mounted = true) as Hc
    by (vm_compute; reflexivity).
  split; [exact Hc|].
  exact (proj1 (confirmed_iff Scenario.static Scenario.mounted) Hc).
Defined.

(** The unbinding rule as the specification words it fails on the code:
    when the entry disappears, the watcher clears the flag of a committed
    consumer without a decrement; when the scope is disposed, the
    decrement happens and the flag stays set. *)
Lemma unbinding_not_as_specified :
  ¬ unbinding_as_specified EntryDisappearance Scenario.static 0
      (run [LClear Scenario.static] Scenario.mounted) ∧
  ¬ unbinding_as_specified ScopeDisposal Scenario.static 0 Scenario.mounted.
Proof.
  split.
  - intros Hspec.
    destruct (Hspec {| data := None; error := None; pending := true;
                       fresh := false; owners := 1 |})
      as (s' & Hs' & Ho & _); [vm_compute; reflexivity|].
    vm_compute in Hs'. injection Hs' as <-. vm_compute in Ho. discriminate.
  - intros Hspec.
    destruct (Hspec {| data := None; error := None; pending := true;
                       fresh := false; owners := 1 |})
      as (s' & _ & _ & Hc & _); [vm_compute; reflexivity|].
    vm_compute in Hc. discriminate.
Qed.

Lemma unbinding_decrements_committed_only_witness :
  let w := Scenario.mounted in
  let s := {| data := @None string; error := @None string; pending := true;
              fresh := false; owners := 1 |} in
  stateValue Scenario.static w = Some 0 ∧ heap w !! 0 = Some s ∧
  (0 ≤ owners s)%Z ∧ (committed w = true → 1 ≤ owners s)%Z ∧
  heap (unbind ScopeDisposal Scenario.static w) !! 0 = Some (with_owners 0 s) ∧
  (0 ≤ owners (with_owners 0 s))%Z.
Proof.
  intros w s.
  assert (stateValue Scenario.static w = Some 0) as Hl by (vm_compute; reflexivity).
  assert (heap w !! 0 = Some s) as Hs by (vm_compute; reflexivity).
  assert (heap (unbind ScopeDisposal Scenario.static w) !! 0 = Some (with_owners 0 s))
    as Hs' by (vm_compute; reflexivity).
  assert (0 ≤ owners s)%Z as Hnn by (simpl; lia).
  assert (committed w = true → 1 ≤ owners s)%Z as Hc by (intros _; simpl; lia).
  split_and!; [exact Hl|exact Hs|exact Hnn|exact Hc|exact Hs'|].
  exact (proj1 (proj2 (proj2 (proj2 (proj2
           (unbinding_decrements_committed_only Scenario.static w)))))
           0 s (with_owners 0 s) Hl Hs Hnn Hc Hs').
Defined.

Lemma fetch_begins_iff_triggered_witness :
  scopeKey Scenario.stale = Some Scenario.static ∧
  ownedScope Scenario.stale = true ∧
  stateValue Scenario.static Scenario.stale = Some 0 ∧
  length (tasks (step (LFetch Scenario.controlled) Scenario.stale)) =
    S (length (tasks Scenario.stale)).
Proof.
  assert (scopeKey Scenario.stale = Some Scenario.static) as Hk
    by (vm_compute; reflexivity).
  assert (ownedScope Scenario.stale = true) as Ho by (vm_compute; reflexivity).
  split_and!; [exact Hk|exact Ho|vm_compute; reflexivity|].
  apply (proj1 (proj1 (fetch_begins_iff_triggered Scenario.controlled Scenario.static
                         Scenario.stale Hk) Ho)).
  exists 0, {| data := Some "foo"; error := None; pending := false; fresh := false;
               owners := 1 |}.
  split_and!; vm_compute; reflexivity.
Defined.

Lemma success_commit_witness :
  let w2 := run [LMarkStale Scenario.static] (settleResolve 0 "v1" Scenario.mounted) in
  tasks Scenario.mounted !! 0 = Some Scenario.inFlight ∧
  heap (resume 0 w2) !! 0 =
    Some {| data := Some "v1"; error := None; pending := false; fresh := true;
            owners := 1 |}.
Proof.
  intros w2.
  assert (tasks Scenario.mounted !! 0 = Some Scenario.inFlight) as Htask
    by (vm_compute; reflexivity).
  split; [exact Htask|].
  refine (proj1 (proj2 (proj2 (success_commit Scenario.mounted 0 Scenario.inFlight
            "v1" Htask eq_refl eq_refl)) w2
            {| data := None; error := None; pending := true; fresh := false;
               owners := 1 |} _ _)); vm_compute; reflexivity.
Defined.

Lemma failure_commit_witness :
  let s := {| data := Some "foo"; error := @None string; pending := true;
              fresh := false; owners := 1 |} in
  let w2 := settleReject 1 "foobar" Scenario.refreshing in
  tasks Scenario.refreshing !! 1 = Some Scenario.inFlight ∧
  heap w2 !! 0 = Some s ∧
  heap (resume 1 w2) !! 0 =
    Some {| data := Some "foo"; error := Some "foobar"; pending := false;
            fresh := true; owners := 1 |}.
Proof.
  intros s w2.
  assert (tasks Scenario.refreshing !! 1 = Some Scenario.inFlight) as Htask
    by (vm_compute; reflexivity).
  assert (heap w2 !! 0 = Some s) as Hs by (vm_compute; reflexivity).
  split_and!; [exact Htask|exact Hs|].
  refine (proj1 (proj2 (proj2 (failure_commit Scenario.refreshing 1 Scenario.inFlight
            "foobar" Htask eq_refl eq_refl)) w2 s _ Hs)); vm_compute; reflexivity.
Defined.


Lemma reset_replaces_and_retriggers_witness :
  let sched := [LOwnership; LCondition Scenario.controlled;
                LFetch Scenario.controlled] in
  scopeKey Scenario.loaded = Some Scenario.static ∧
  ownedScope Scenario.loaded = true ∧
  sched ∈ flushOrders Scenario.controlled ∧
  refetching 1 1 (run sched (reset Scenario.static Scenario.loaded)).
Proof.
  intros sched.
  assert (scopeKey Scenario.loaded = Some Scenario.static) as Hk
    by (vm_compute; reflexivity).
  assert (ownedScope Scenario.loaded = true) as Ho by (vm_compute; reflexivity).
  assert (sched ∈ flushOrders Scenario.controlled) as Hin by apply list_elem_of_here.
  split_and!; [exact Hk|exact Ho|exact Hin|].
  exact (proj2 (proj2 (proj2 (proj2
           (reset_replaces_and_retriggers Scenario.static Scenario.loaded))))
           Scenario.controlled sched Hk Ho Hin).
Defined.

(** ** The retry helper *)

Lemma retry_cancel_disarms st :
  (ErrorRetry.timers st = [] ∨
   ∃ id, ErrorRetry.intervalVar st = Some id ∧ ErrorRetry.timers st = [id]) →
  ErrorRetry.timers (ErrorRetry.cancel st) = [].
Proof.
  intros [Hnone|(id & Hvar & Htimers)]; unfold ErrorRetry.cancel.
  - destruct (ErrorRetry.intervalVar st); simpl; [|done]. by rewrite Hnone.
  - rewrite Hvar; simpl. rewrite Htimers; simpl. by rewrite Nat.eqb_refl.
Qed.

Lemma retry_tidy_of_disarmed params st :
  ErrorRetry.timers st = [] → ErrorRetry.tidy params st.
Proof. by left. Qed.

Lemma retry_tidy_step params ev st :
  ErrorRetry.tidy params st → ErrorRetry.tidy params (ErrorRetry.step params ev st).
Proof.
  intros Htidy. destruct ev as [b| |id|]; simpl.
  - destruct Htidy as [Hnone|(id & ? & ? & ? & ? & ?)]; [by left|].
    right. exists id. done.
  - destruct (ErrorRetry.stopped st) eqn:Hstop; [exact Htidy|].
    case_bool_decide as Hw; [exact Htidy|].
    unfold ErrorRetry.onActive.
    destruct (ErrorRetry.isActive st) eqn:Hact.
    + (* reset: no timer can be armed, the watcher had not seen an error *)
      assert (ErrorRetry.timers st = []) as Hnone.
      { destruct Htidy as [?|(id & _ & _ & Hseen & _)]; [done|]. congruence. }
      unfold ErrorRetry.reset; simpl. rewrite Hnone.
      destruct (0 <? ErrorRetry.count params)%Z eqn:Hpos; simpl; [|by left].
      right. exists (ErrorRetry.nextTimer st).
      apply Z.ltb_lt in Hpos. split_and!; try done; lia.
    + apply retry_tidy_of_disarmed, retry_cancel_disarms. simpl.
      destruct Htidy as [Hnone|(id & ? & ? & _)]; [by left|right; eauto].
  - case_bool_decide as Hin; [|exact Htidy].
    destruct Htidy as [Hnone|(id' & Hvar & Htimers & Hseen & Hstop & Hlt)].
    { rewrite Hnone in Hin. by apply elem_of_nil in Hin. }
    unfold ErrorRetry.onInterval. cbn [ErrorRetry.passedRetries].
    destruct (ErrorRetry.count params <=? ErrorRetry.passedRetries st + 1)%Z eqn:Hdone.
    + left. unfold ErrorRetry.cancel; simpl. rewrite Hvar, Htimers; simpl.
      by rewrite Nat.eqb_refl.
    + right. exists id'. simpl. apply Z.leb_gt in Hdone.
      split_and!; try done; lia.
  - apply retry_tidy_of_disarmed, retry_cancel_disarms. simpl.
    destruct Htidy as [Hnone|(id & ? & ? & _)]; [by left|right; eauto].
Qed.

Lemma retry_tidy_setup params active :
  ErrorRetry.tidy params (ErrorRetry.setupErrorRetry params active).
Proof.
  unfold ErrorRetry.setupErrorRetry, ErrorRetry.onActive.
  destruct active; [|by left].
  unfold ErrorRetry.reset; simpl.
  destruct (0 <? ErrorRetry.count params)%Z eqn:Hpos; simpl; [|by left].
  right. exists 0. apply Z.ltb_lt in Hpos. split_and!; try done; lia.
Qed.

Lemma retry_run_snoc params evs ev st :
  ErrorRetry.run params (evs ++ [ev]) st =
    ErrorRetry.step params ev (ErrorRetry.run params evs st).
Proof. unfold ErrorRetry.run. by rewrite foldl_snoc. Qed.

Lemma retry_tidy_run params evs st :
  ErrorRetry.tidy params st → ErrorRetry.tidy params (ErrorRetry.run params evs st).
Proof.
  intros Htidy. induction evs as [|ev evs IH] using rev_ind; [done|].
  rewrite retry_run_snoc. by apply retry_tidy_step.
Qed.

Lemma retry_step_disarmed_calls params ev st :
  ErrorRetry.timers st = [] →
  ErrorRetry.mutateCalls (ErrorRetry.step params ev st) = ErrorRetry.mutateCalls st.
Proof.
  intros Hnone. destruct ev as [b| |id|]; simpl; try done.
  - unfold ErrorRetry.onActive, ErrorRetry.reset, ErrorRetry.cancel.
    repeat case_match; done.
  - rewrite Hnone. rewrite bool_decide_false; [done|]. apply not_elem_of_nil.
  - unfold ErrorRetry.cancel; simpl. by case_match.
Qed.

(** X12. No timer leaks from the retry helper: in every execution at most
    one timer is armed; an armed timer is the one [interval] names, the
    watcher has last seen an error, the scope is not disposed and fewer
    than [count] retries have passed.  With [count <= 0] no timer is ever
    armed and [mutate] is never called. *)
Theorem retry_at_most_one_timer
    (params : ErrorRetry.ErrorRetryParams) (active : bool)
    (evs : list ErrorRetry.Event) :
  let st := ErrorRetry.run params evs (ErrorRetry.setupErrorRetry params active) in
  length (ErrorRetry.timers st) ≤ 1 ∧
  (∀ id, id ∈ ErrorRetry.timers st →
     ErrorRetry.intervalVar st = Some id ∧
     ErrorRetry.watched st = Some true ∧
     ErrorRetry.stopped st = false ∧
     (0 ≤ ErrorRetry.passedRetries st < ErrorRetry.count params)%Z) ∧
  ((ErrorRetry.count params ≤ 0)%Z →
     ErrorRetry.timers st = [] ∧ ErrorRetry.mutateCalls st = 0).
Proof.
  intros st.
  assert (ErrorRetry.tidy params st) as Htidy
    by apply retry_tidy_run, retry_tidy_setup.
  split_and!.
  - destruct Htidy as [->|(id & _ & -> & _)]; simpl; lia.
  - intros id Hin. destruct Htidy as [Hnone|(id' & Hvar & Htimers & ? & ? & ?)].
    + rewrite Hnone in Hin. by apply elem_of_nil in Hin.
    + rewrite Htimers in Hin. apply list_elem_of_singleton in Hin as ->. done.
  - intros Hcount. subst st.
    induction evs as [|ev evs IH] using rev_ind.
    + unfold ErrorRetry.setupErrorRetry, ErrorRetry.onActive, ErrorRetry.reset,
        ErrorRetry.cancel; simpl.
      assert ((0 <? ErrorRetry.count params)%Z = false) as -> by (apply Z.ltb_ge; lia).
      by destruct active.
    + rewrite retry_run_snoc.
      specialize (IH (retry_tidy_run params evs _ (retry_tidy_setup params active))).
      destruct IH as [Hnone Hcalls].
      rewrite retry_step_disarmed_calls by done. split; [|done].
      pose proof (retry_tidy_step params ev _
                    (retry_tidy_run params evs _ (retry_tidy_setup params active)))
        as [Hn|(id & _ & _ & _ & _ & Hlt)]; [done|lia].
Qed.

Lemma retry_ticks_disarmed params id n st :
  ErrorRetry.timers st = [] →
  ErrorRetry.run params (replicate n (ErrorRetry.Tick id)) st = st.
Proof.
  intros Hnone. induction n as [|n IH]; [done|].
  cbn [replicate]. unfold ErrorRetry.run in *. cbn [foldl].
  assert (ErrorRetry.step params (ErrorRetry.Tick id) st = st) as ->; [|done].
  simpl. rewrite Hnone. rewrite bool_decide_false; [done|]. apply not_elem_of_nil.
Qed.

(** X13. While the error stays, an armed timer calls [mutate] once per tick
    until [count] retries have passed and is then cleared: after [n]
    ticks [mutate] has been called [min n (count - passedRetries)] more
    times, and the timer is disarmed exactly when that many ticks have
    happened. *)
Theorem retry_stops_after_count
    (params : ErrorRetry.ErrorRetryParams) (st : ErrorRetry.t) (id n : nat) :
  ErrorRetry.intervalVar st = Some id →
  ErrorRetry.timers st = [id] →
  (0 ≤ ErrorRetry.passedRetries st < ErrorRetry.count params)%Z →
  let left := Z.to_nat (ErrorRetry.count params - ErrorRetry.passedRetries st) in
  let st' := ErrorRetry.run params (replicate n (ErrorRetry.Tick id)) st in
  ErrorRetry.mutateCalls st' = ErrorRetry.mutateCalls st + min n left ∧
  (ErrorRetry.timers st' = [] ↔ left ≤ n).
Proof.
  revert st. induction n as [|n IH]; intros st Hvar Htimers Hlt left st'.
  - subst st' left. simpl. rewrite Htimers. split; [lia|]. split; [done|intros ?; lia].
  - subst st'. cbn [replicate]. unfold ErrorRetry.run. cbn [foldl].
    fold (ErrorRetry.run params (replicate n (ErrorRetry.Tick id))
            (ErrorRetry.step params (ErrorRetry.Tick id) st)).
    assert (ErrorRetry.step params (ErrorRetry.Tick id) st =
            ErrorRetry.onInterval params st) as ->.
    { simpl. rewrite Htimers. rewrite bool_decide_true; [done|].
      apply list_elem_of_here. }
    unfold ErrorRetry.onInterval. cbn [ErrorRetry.passedRetries].
    destruct (ErrorRetry.count params <=? ErrorRetry.passedRetries st + 1)%Z eqn:Hdone.
    + apply Z.leb_le in Hdone.
      assert (left = 1) as Hleft by (subst left; lia).
      clearbody left. subst left.
      rewrite retry_ticks_disarmed.
      * unfold ErrorRetry.cancel; simpl. rewrite Hvar, Htimers; simpl.
        rewrite Nat.eqb_refl; simpl. split; [lia|]. split; [intros _; lia|done].
      * unfold ErrorRetry.cancel; simpl. rewrite Hvar, Htimers; simpl.
        by rewrite Nat.eqb_refl.
    + apply Z.leb_gt in Hdone.
      set (st1 := ErrorRetry.mk _ _ _ _ _ _ _ _).
      destruct (IH st1 Hvar Htimers) as [Hcalls Hoff]; [simpl; lia|].
      rewrite Hcalls. subst st1 left. cbn [ErrorRetry.mutateCalls ErrorRetry.passedRetries] in *.
      split; [lia|]. rewrite Hoff. lia.
Qed.

Lemma retry_stops_after_count_witness :
  let params := {| ErrorRetry.count := 3; ErrorRetry.interval := 1000 |} in
  let st := ErrorRetry.setupErrorRetry params true in
  ErrorRetry.intervalVar st = Some 0 ∧ ErrorRetry.timers st = [0] ∧
  (0 ≤ ErrorRetry.passedRetries st < ErrorRetry.count params)%Z ∧
  ErrorRetry.mutateCalls
    (ErrorRetry.run params (replicate 5 (ErrorRetry.Tick 0)) st) = 3.
Proof.
  intros params st.
  assert (0 ≤ ErrorRetry.passedRetries st < ErrorRetry.count params)%Z as Hlt
    by (change (0 ≤ 0 < 3)%Z; lia).
  refine (conj eq_refl (conj eq_refl (conj Hlt _))).
  exact (proj1 (retry_stops_after_count params st 0 5 eq_refl eq_refl Hlt)).
Defined.

(** ** Further concrete executions *)

Lemma throwing_fetch_commits_error_witness :
  let fetch := {| fn_registers := [true]; fn_throws := Some "boom" |} in
  let w := Scenario.stale in
  let s := {| data := Some "foo"; error := @None string; pending := false;
              fresh := false; owners := 1 |} in
  let w1 := fetchWatch fetch Scenario.static w in
  stateValue Scenario.static w = Some 0 ∧ heap w !! 0 = Some s ∧
  heap (resume (length (tasks w)) w1) !! 0 =
    Some {| data := Some "foo"; error := Some "boom"; pending := false;
            fresh := true; owners := 1 |}.
Proof.
  intros fetch w s w1.
  assert (stateValue Scenario.static w = Some 0) as Hl by (vm_compute; reflexivity).
  assert (heap w !! 0 = Some s) as Hs by (vm_compute; reflexivity).
  refine (conj Hl (conj Hs _)).
  exact (proj1 (proj2 (throwing_fetch_commits_error fetch "boom" Scenario.static w 0 s
                         eq_refl Hl Hs eq_refl eq_refl))).
Defined.

Lemma markStale_keeps_data_while_refreshing_witness :
  let w := Scenario.loaded in
  let s := {| data := Some "foo"; error := @None string; pending := false;
              fresh := true; owners := 1 |} in
  let w2 := step (LFetch Scenario.controlled) (markStale Scenario.static w) in
  stateValue Scenario.static w = Some 0 ∧ heap w !! 0 = Some s ∧
  scopeKey w = Some Scenario.static ∧ ownedScope w = true ∧
  heap w2 !! 0 =
    Some {| data := Some "foo"; error := None; pending := true; fresh := false;
            owners := 1 |} ∧
  currentFetchTask w2 = Some (length (tasks w)).
Proof.
  intros w s w2.
  assert (stateValue Scenario.static w = Some 0) as Hl by (vm_compute; reflexivity).
  assert (heap w !! 0 = Some s) as Hs by (vm_compute; reflexivity).
  assert (scopeKey w = Some Scenario.static) as Hk by (vm_compute; reflexivity).
  assert (ownedScope w = true) as Ho by (vm_compute; reflexivity).
  refine (conj Hl (conj Hs (conj Hk (conj Ho _)))).
  exact (proj2 (proj2 (proj2 (proj2
           (proj2 (markStale_keeps_data_while_refreshing Scenario.controlled
                     Scenario.static w) 0 s Hl Hs)))) Hk Ho eq_refl).
Defined.

Lemma at_most_one_live_task_witness :
  let w := run Scenario.mount initialWorld in
  tasks w !! 0 = Some Scenario.inFlight ∧
  currentFetchTask w = Some 0 ∧ ownedScope w = true ∧
  task_phase Scenario.inFlight = Awaiting.
Proof.
  intros w.
  assert (tasks w !! 0 = Some Scenario.inFlight) as Htask by (vm_compute; reflexivity).
  refine (conj Htask _).
  exact (proj1 (at_most_one_live_task Scenario.mount) 0 Scenario.inFlight Htask eq_refl).
Defined.

Lemma resource_handle_tracks_owned_scope_witness :
  let w := run Scenario.mount initialWorld in
  ownedScope w = true ∧ resource w = scopeKey w ∧ resource w = keyReactive w.
Proof.
  intros w.
  assert (ownedScope w = true) as Ho by (vm_compute; reflexivity).
  refine (conj Ho _).
  exact (proj1 (proj2 (resource_handle_tracks_owned_scope Scenario.mount)) Ho).
Defined.

Lemma engine_never_writes_owners_witness :
  let w := run [LResolve 0 "foo"] Scenario.mounted in
  engineLabel (@LResume string string 0) = true ∧
  owners <$> heap (step (LResume 0) w) = owners <$> heap w.
Proof.
  intros w. split; [reflexivity|].
  exact (engine_never_writes_owners (LResume 0) w eq_refl).
Defined.

Lemma losing_confirmation_stops_engine_witness :
  let shared := {| data := @None string; error := @None string; pending := true;
                   fresh := false; owners := 2 |} in
  let ls := Scenario.mount ++ [LWrite Scenario.static shared] in
  let w := run ls initialWorld in
  let w' := step (LCondition Scenario.controlled) w in
  scopeKey w = Some Scenario.static ∧ ownedScope w = true ∧
  confirmed Scenario.static w = false ∧
  ownedScope w' = false ∧ resource w' = None ∧ currentFetchTask w' = None ∧
  heap w' = heap w ∧ store w' = store w ∧
  heap (resume 0 (run [LResolve 0 "late"] w')) = heap (run [LResolve 0 "late"] w').
Proof.
  intros shared ls w w'.
  assert (scopeKey w = Some Scenario.static) as Hk by (vm_compute; reflexivity).
  assert (ownedScope w = true) as Ho by (vm_compute; reflexivity).
  assert (confirmed Scenario.static w = false) as Hc by (vm_compute; reflexivity).
  assert (currentFetchTask w = Some 0) as Hcur by (vm_compute; reflexivity).
  assert (tasks w !! 0 = Some Scenario.inFlight) as Htask by (vm_compute; reflexivity).
  pose proof (losing_confirmation_stops_engine Scenario.controlled Scenario.static
                ls [LResolve 0 "late"] Hk Ho Hc)
    as (H1 & H2 & H3 & H4 & H5 & H6).
  refine (conj Hk (conj Ho (conj Hc (conj H1 (conj H2 (conj H3 (conj H4 (conj H5 _)))))))).
  exact (H6 0 Scenario.inFlight Hcur Htask eq_refl).
Defined.

Lemma disabled_configuration_tears_down_witness :
  let w := run Scenario.mount initialWorld in
  let w' := reconfigure (@ConfigFalsy string) w in
  enabled (@ConfigFalsy string) = false ∧
  scopeKey w' = None ∧ idle w' ∧ store w' = store w.
Proof.
  intros w w'.
  assert (enabled (@ConfigFalsy string) = false) as Hoff by reflexivity.
  refine (conj Hoff _).
  pose proof (proj2 (proj2 (proj2
                (disabled_configuration_tears_down ConfigFalsy Scenario.mount))) Hoff)
    as (H1 & H2 & H3 & _).
  exact (conj H1 (conj H2 H3)).
Defined.

Lemma reenabling_reuses_entry_witness :
  let ls := Scenario.mount ++ [LResolve 0 "foo"; LResume 0; LFinally 0] in
  let w := run ls initialWorld in
  let s := {| data := Some "foo"; error := @None string; pending := false;
              fresh := true; owners := 1 |} in
  let w' := run [LKey Scenario.controlled None;
                 LKey Scenario.controlled (Some Scenario.static)] w in
  scopeKey w = Some Scenario.static ∧ committed w = true ∧
  stateValue Scenario.static w = Some 0 ∧ heap w !! 0 = Some s ∧
  heap w' !! 0 = Some s ∧ currentFetchTask w' = None ∧
  length (tasks w') = length (tasks w) ∧
  ownedScope w' = true ∧ resource w' = Some Scenario.static.
Proof.
  intros ls w s w'.
  assert (scopeKey w = Some Scenario.static) as Hk by (vm_compute; reflexivity).
  assert (committed w = true) as Hc by (vm_compute; reflexivity).
  assert (stateValue Scenario.static w = Some 0) as Hl by (vm_compute; reflexivity).
  assert (heap w !! 0 = Some s) as Hs by (vm_compute; reflexivity).
  pose proof (reenabling_reuses_entry Scenario.controlled Scenario.static ls 0 s
                Hk Hc Hl Hs) as (_ & _ & _ & Hone & Hkeep & _).
  destruct (Hkeep (or_intror (or_intror eq_refl))) as (H1 & H2 & H3).
  destruct (Hone eq_refl) as (H4 & H5).
  exact (conj Hk (conj Hc (conj Hl (conj Hs (conj H1 (conj H2 (conj H3 (conj H4 H5)))))))).
Defined.

Lemma retry_at_most_one_timer_witness :
  let params := {| ErrorRetry.count := 0; ErrorRetry.interval := 1000 |} in
  let evs := [ErrorRetry.Tick 0; ErrorRetry.SetError false; ErrorRetry.Flush;
              ErrorRetry.SetError true; ErrorRetry.Flush; ErrorRetry.Tick 0] in
  let st := ErrorRetry.run params evs (ErrorRetry.setupErrorRetry params true) in
  (ErrorRetry.count params ≤ 0)%Z ∧
  ErrorRetry.timers st = [] ∧ ErrorRetry.mutateCalls st = 0.
Proof.
  intros params evs st.
  assert (ErrorRetry.count params ≤ 0)%Z as Hcount by (simpl; lia).
  refine (conj Hcount _).
  exact (proj2 (proj2 (retry_at_most_one_timer params true evs)) Hcount).
Defined.

Lemma mounting_bootstraps_entry_witness :
  let w := run [] (@initialWorld string string) in
  let w1 := step (LKey Scenario.controlled (Some Scenario.static)) w in
  let w' := run [LMicrotask; LOwnership; LCondition Scenario.controlled] w1 in
  scopeKey w = None ∧ truthy Scenario.static = true ∧
  stateValue Scenario.static w = None ∧ scheduledResets w = [] ∧
  stateValue Scenario.static w' = Some 0 ∧ committed w' = true ∧
  refetching 0 0 w'.
Proof.
  intros w w1 w'.
  pose proof (@mounting_bootstraps_entry string string Scenario.controlled
                Scenario.static []
                eq_refl eq_refl eq_refl eq_refl)
    as (_ & H1 & H2 & _ & _ & H3).
  exact (conj eq_refl (conj eq_refl (conj eq_refl (conj eq_refl (conj H1 (conj H2 H3)))))).
Defined.

Lemma commit_ends_fetch_cycle_witness :
  let w := run [LResolve 0 "foo"] Scenario.mounted in
  let task := with_race (Resolved (Fetched "foo")) Scenario.inFlight in
  let s := {| data := @None string; error := @None string; pending := true;
              fresh := false; owners := 1 |} in
  let w' := finalize 0 (resume 0 w) in
  tasks w !! 0 = Some task ∧ stateValue Scenario.static w = Some 0 ∧
  heap w !! 0 = Some s ∧ currentFetchTask w = Some 0 ∧
  currentFetchTask w' = None ∧
  fetchWatch Scenario.controlled Scenario.static w' = w'.
Proof.
  intros w task s w'.
  assert (tasks w !! 0 = Some task) as Htask by (vm_compute; reflexivity).
  assert (stateValue Scenario.static w = Some 0) as Hl by (vm_compute; reflexivity).
  assert (heap w !! 0 = Some s) as Hs by (vm_compute; reflexivity).
  assert (currentFetchTask w = Some 0) as Hcur by (vm_compute; reflexivity).
  pose proof (commit_ends_fetch_cycle Scenario.controlled Scenario.static w 0 task s
                Htask eq_refl (or_introl (ex_intro _ "foo" eq_refl)) Hl Hs)
    as (H1 & _ & _ & H2).
  exact (conj Htask (conj Hl (conj Hs (conj Hcur (conj (H1 Hcur) H2))))).
Defined.

Lemma keys_never_share_an_entry_witness :
  let ls := Scenario.mount ++ [LReset (KString "other")] in
  let w := run ls initialWorld in
  stateValue Scenario.static w = Some 0 ∧
  stateValue (KString "other") w = Some 1 ∧
  is_Some (heap w !! 1).
Proof.
  intros ls w.
  assert (stateValue Scenario.static w = Some 0) as H0 by (vm_compute; reflexivity).
  assert (stateValue (KString "other") w = Some 1) as H1 by (vm_compute; reflexivity).
  refine (conj H0 (conj H1 _)).
  exact (proj2 (keys_never_share_an_entry ls) (KString "other") 1 H1).
Defined.
